(** * cuidapet gallery: photo extraction and mosaic layout

    A shallow embedding of [src/gallery.js]: the scan of an album page for
    image descriptors ([fetchGooglePhotos]) and the construction of the
    gallery grid ([renderGallery]).

    Strings are sequences of UTF-16 code units ([list N]); the regular
    expression of the extractor is kept as a term and run by a backtracking
    matcher; the DOM nodes that [renderGallery] builds are first-order
    data. *)

From Stdlib Require Import NArith Ascii.
From Equations.Prop Require Import Equations.
From stdpp Require Import gmap list strings.

Local Open Scope N_scope.

(** ** JavaScript strings and numbers *)

Module JS.

(** A string value: its UTF-16 code units. *)
Abbreviation str := (list N).

(** The code units of a source literal written in ASCII. *)
Definition lit (s : string) : str :=
  N_of_ascii <$> String.list_ascii_of_string s.

Definition QUOTE : N := 34.      (* the double quote *)
Definition COMMA : N := 44.
Definition LBRACKET : N := 91.
Definition RBRACKET : N := 93.

Definition isDigit (c : N) : bool := (48 <=? c) && (c <=? 57).

(** Number values that [parseInt] can return on unsigned input: NaN, a
    non-negative integral double (given by its mathematical value), or
    +Infinity. *)
Inductive Number :=
| NaN
| Finite (v : N)
| Infinity.

#[global] Instance Number_eq_dec : EqDecision Number.
Proof. solve_decision. Defined.

(** The Number value of a non-negative integer: round to nearest, ties to
    even, 53 bits of significand; 2^1024 and above become +Infinity. *)
Definition toNumber (n : N) : Number :=
  if n <? 2 ^ 53 then Finite n
  else
    let e := N.log2 n - 52 in
    let q := N.shiftr n e in
    let r := n mod 2 ^ e in
    let half := 2 ^ (e - 1) in
    let q' := if (half <? r) || ((r =? half) && N.odd q) then q + 1 else q in
    let v := q' * 2 ^ e in
    if 2 ^ 1024 <=? v then Infinity else Finite v.

(** The longest prefix of decimal digits of [s], read most significant
    digit first, with the number of digits read. *)
Fixpoint digitsValue (acc : N) (count : nat) (s : str) : N * nat :=
  match s with
  | c :: s' =>
      if isDigit c then digitsValue (10 * acc + (c - 48)) (S count) s'
      else (acc, count)
  | [] => (acc, count)
  end.

(** [parseInt(s, 10)] for a string without leading white space or sign
    (the only strings the extractor passes are matched by [\d+]): the
    digits up to the first other code unit, NaN when there is none.  The
    value is the nearest Number; an engine may also drop the digits after
    the twentieth, which moves no value to 300 or below. *)
Definition parseInt (s : str) : Number :=
  match digitsValue 0 0%nat s with
  | (_, O) => NaN
  | (v, S _) => toNumber v
  end.

(** [x > n] for a Number [x] and an integer literal [n]. *)
Definition gt (x : Number) (n : N) : bool :=
  match x with
  | NaN => false
  | Finite v => n <? v
  | Infinity => true
  end.

End JS.

Import JS.

(** ** Regular expressions *)

Module RegExp.

(** One-character matchers. *)
Inductive CharSet :=
| Char (c : N)           (* a pattern character *)
| NotChar (c : N)        (* the class [^c] *)
| Digit.                 (* \d *)

Definition accepts (cs : CharSet) (c : N) : bool :=
  match cs with
  | Char c' => bool_decide (c = c')
  | NotChar c' => negb (bool_decide (c = c'))
  | Digit => isDigit c
  end.

(** The fragment of the pattern language used by the extractor. *)
Inductive Pattern :=
| Atom (cs : CharSet)
| Chars (s : string)                   (* consecutive pattern characters *)
| OneOrMore (cs : CharSet)             (* cs+, greedy *)
| Cat (p1 p2 : Pattern)
| Group (n : nat) (p : Pattern).       (* the n-th capturing parentheses *)

(** Matcher state: the input not yet consumed, its index in the whole
    input, and the captures recorded so far. *)
Record State := mkState {
  rest : str;
  endIndex : nat;
  captures : gmap nat str
}.

Definition Continuation := State -> option State.

(** Greedy [cs*]: take one more character and repeat; when the rest of
    the pattern fails after that, give the character back. *)
Fixpoint star (cs : CharSet) (s : str) (i : nat) (caps : gmap nat str)
    (k : Continuation) : option State :=
  match s with
  | c :: s' =>
      if accepts cs c then
        match star cs s' (S i) caps k with
        | Some r => Some r
        | None => k (mkState s i caps)
        end
      else k (mkState s i caps)
  | [] => k (mkState s i caps)
  end.

Definition one (cs : CharSet) (x : State) (k : Continuation) : option State :=
  match rest x with
  | c :: s' =>
      if accepts cs c then k (mkState s' (S (endIndex x)) (captures x))
      else None
  | [] => None
  end.

Fixpoint chars (l : str) (x : State) (k : Continuation) : option State :=
  match l with
  | [] => k x
  | c :: l' => one (Char c) x (fun y => chars l' y k)
  end.

(** The backtracking matcher, in continuation-passing style. *)
Fixpoint run (p : Pattern) (x : State) (k : Continuation) : option State :=
  match p with
  | Atom cs => one cs x k
  | Chars s => chars (lit s) x k
  | OneOrMore cs =>
      one cs x (fun y => star cs (rest y) (endIndex y) (captures y) k)
  | Cat p1 p2 => run p1 x (fun y => run p2 y k)
  | Group n p =>
      run p x (fun y =>
        k (mkState (rest y) (endIndex y)
             (<[n := take (endIndex y - endIndex x) (rest x)]> (captures y))))
  end.

(** A successful match: where it starts and ends, and its captures. *)
Record Match := mkMatch {
  index : nat;
  lastIndex : nat;
  groups : gmap nat str
}.

(** [match[n]]; a group that did not take part reads as the empty text. *)
Definition group (m : Match) (n : nat) : str := default [] (groups m !! n).

(** The pattern tried at the start of [s], which sits at index [i]. *)
Definition matchAt (p : Pattern) (s : str) (i : nat) : option Match :=
  match run p (mkState s i ∅) Some with
  | Some y => Some (mkMatch i (endIndex y) (captures y))
  | None => None
  end.

(** The first index at or after [i] where the pattern matches. *)
Fixpoint search (p : Pattern) (s : str) (i : nat) : option Match :=
  match matchAt p s i with
  | Some m => Some m
  | None =>
      match s with
      | [] => None
      | _ :: s' => search p s' (S i)
      end
  end.

(** [regex.exec(input)] for a pattern with the global flag whose
    [lastIndex] property is [i]: the match found, or [None] for [null].
    A match moves [lastIndex] to its end; [null] resets it to 0. *)
Definition exec (p : Pattern) (input : str) (i : nat) : option Match :=
  if decide (i ≤ length input)%nat then search p (drop i input) i else None.

End RegExp.

Import RegExp.

(** ** The extractor: [fetchGooglePhotos] *)

Record Photo := mkPhoto {
  url : str;
  width : Number;
  height : Number
}.

#[global] Instance Photo_eq_dec : EqDecision Photo.
Proof. solve_decision. Defined.

Definition HOST : string := "https://lh3.googleusercontent.com/".

Declare Scope pattern_scope.
Delimit Scope pattern_scope with pattern.
Infix "⋅" := Cat (at level 60, right associativity) : pattern_scope.

(** The descriptor pattern of the source, with Q for the double quote:
    \[Q(https:\/\/lh3\.googleusercontent\.com\/[^Q]+)Q,(\d+),(\d+)\]
    under the global flag. *)
Definition regex : Pattern :=
  (Atom (Char LBRACKET) ⋅ Atom (Char QUOTE)
   ⋅ Group 1 (Chars HOST ⋅ OneOrMore (NotChar QUOTE))
   ⋅ Atom (Char QUOTE) ⋅ Atom (Char COMMA)
   ⋅ Group 2 (OneOrMore Digit)
   ⋅ Atom (Char COMMA)
   ⋅ Group 3 (OneOrMore Digit)
   ⋅ Atom (Char RBRACKET))%pattern.

(** The body of the [while] loop up to the quota test: the size filter and
    the duplicate test on one match, on the array [photos] and the set
    [seenUrls]. *)
Definition accept (m : Match) (photos : list Photo) (seenUrls : gset str)
    : list Photo * gset str :=
  let url := group m 1 in
  let width := parseInt (group m 2) in
  let height := parseInt (group m 3) in
  if gt width 300 && gt height 300 then
    if negb (bool_decide (url ∈ seenUrls)) then
      (photos ++ [mkPhoto url width height], seenUrls ∪ {[url]})
    else (photos, seenUrls)
  else (photos, seenUrls).

(** The text of a descriptor with the part [body] of the URL after the
    host and the digits [w] and [h], the conditions under which it is one,
    and the match it gives at index [i]. *)
Definition descriptorText (body w h : str) : str :=
  [LBRACKET; QUOTE] ++ lit HOST ++ body ++ [QUOTE; COMMA] ++ w ++ [COMMA]
    ++ h ++ [RBRACKET].

Record wellFormed (body w h : str) : Prop := mkWellFormed {
  wf_body_ne : body ≠ [];
  wf_body : Forall (λ c, accepts (NotChar QUOTE) c = true) body;
  wf_w_ne : w ≠ [];
  wf_w : Forall (λ c, accepts Digit c = true) w;
  wf_h_ne : h ≠ [];
  wf_h : Forall (λ c, accepts Digit c = true) h
}.

Definition descriptorMatch (i : nat) (body w h : str) : Match :=
  mkMatch i (i + length (descriptorText body w h))
    (<[3%nat := h]> (<[2%nat := w]> (<[1%nat := lit HOST ++ body]> ∅))).

(** *** What the pattern matches

    The loop below ends because every match is at least one character
    long; that rests on the exact shape of the matches. *)

Section Matcher.

Lemma one_Some cs x k r :
  one cs x k = Some r ↔
  ∃ c t, rest x = c :: t ∧ accepts cs c = true ∧
         k (mkState t (S (endIndex x)) (captures x)) = Some r.
Proof.
  unfold one. destruct (rest x) as [|c t].
  - split; [done|]. by intros (? & ? & ? & _).
  - destruct (accepts cs c) eqn:Hc; split.
    + intros Hk. by exists c, t.
    + by intros (? & ? & [= <- <-] & _ & Hk).
    + done.
    + intros (? & ? & [= <- <-] & Hc' & _). congruence.
Qed.

Lemma chars_Some l x k r :
  chars l x k = Some r ↔
  ∃ t, rest x = l ++ t ∧
       k (mkState t (endIndex x + length l) (captures x)) = Some r.
Proof.
  revert x. induction l as [|c l IH]; intros x; simpl.
  - destruct x as [s i caps]; simpl. rewrite Nat.add_0_r. split.
    + intros Hk. by exists s.
    + by intros (t & -> & Hk).
  - rewrite one_Some. setoid_rewrite IH. simpl.
    replace (endIndex x + S (length l))%nat with (S (endIndex x) + length l)%nat by lia.
    split.
    + intros (c' & t & Hx & Hc & t' & -> & Hk). apply bool_decide_eq_true in Hc as ->.
      eauto.
    + intros (t & Hx & Hk). exists c, (l ++ t). rewrite bool_decide_eq_true. eauto.
Qed.

Lemma star_sound cs s i caps k r :
  star cs s i caps k = Some r →
  ∃ w t, s = w ++ t ∧ Forall (λ c, accepts cs c = true) w ∧
         k (mkState t (i + length w) caps) = Some r.
Proof.
  revert i. induction s as [|c s IH]; intros i; simpl.
  - intros H. exists [], []. rewrite Nat.add_0_r. auto.
  - destruct (accepts cs c) eqn:Hc.
    + destruct (star cs s (S i) caps k) eqn:Hs.
      * intros [= ->]. destruct (IH _ Hs) as (w & t & -> & Hw & Hr).
        exists (c :: w), t. simpl. rewrite Nat.add_succ_r. auto.
      * intros H. exists [], (c :: s). rewrite Nat.add_0_r. auto.
    + intros H. exists [], (c :: s). rewrite Nat.add_0_r. auto.
Qed.

(** When the rest of the pattern cannot start with a character of the
    class, giving characters back never helps: the longest run decides. *)
Lemma star_greedy cs w t i caps k :
  (∀ c t j m, accepts cs c = true → k (mkState (c :: t) j m) = None) →
  Forall (λ c, accepts cs c = true) w →
  head (accepts cs <$> t) ≠ Some true →
  star cs (w ++ t) i caps k = k (mkState t (i + length w) caps).
Proof.
  intros Hk Hw Ht. revert i.
  induction Hw as [|c w Hc Hw IH]; intros i; simpl.
  - rewrite Nat.add_0_r. destruct t as [|c t]; simpl in *; [done|].
    by destruct (accepts cs c).
  - rewrite Hc, IH, Nat.add_succ_r.
    destruct (k _) eqn:Hr; [done|]. by rewrite Hk.
Qed.

End Matcher.

Lemma take_prefix {A} n (l k : list A) : n = length l → take n (l ++ k) = l.
Proof. intros ->. by rewrite take_app_length. Qed.

Lemma one_reject cs cs' c t j m k :
  (∀ c, accepts cs c = true → accepts cs' c = false) →
  accepts cs c = true → one cs' (mkState (c :: t) j m) k = None.
Proof. intros Hcs Hc. unfold one; simpl. by rewrite (Hcs _ Hc). Qed.

Lemma notQuote_reject c : accepts (NotChar QUOTE) c = true → accepts (Char QUOTE) c = false.
Proof. simpl. by destruct (bool_decide _). Qed.

Lemma digit_reject c' :
  isDigit c' = false → ∀ c, accepts Digit c = true → accepts (Char c') c = false.
Proof.
  simpl. intros Hc' c Hc. apply bool_decide_eq_false. intros ->. congruence.
Qed.

Ltac peel_one H :=
  let c := fresh "c" in let t := fresh "t" in
  let Hr := fresh "Hr" in let Hc := fresh "Hc" in
  apply one_Some in H as (c & t & Hr & Hc & H);
  cbn [rest endIndex captures] in Hr, H; cbn beta in H.

Ltac peel_star H :=
  let w := fresh "w" in let t := fresh "t" in
  let Hr := fresh "Hr" in let Hw := fresh "Hw" in
  apply star_sound in H as (w & t & Hr & Hw & H);
  cbn [rest endIndex captures] in Hr, H; cbn beta in H.

Lemma matchAt_regex_Some s i m :
  matchAt regex s i = Some m →
  ∃ body w h t, s = descriptorText body w h ++ t ∧ wellFormed body w h ∧
                m = descriptorMatch i body w h.
Proof.
  unfold matchAt. destruct (run _ _ _) as [y|] eqn:H; [|done]. intros [= <-].
  cbn [run regex] in H.
  peel_one H. peel_one H.
  apply chars_Some in H as (t1 & Hr1 & H); cbn [rest endIndex captures] in Hr1, H; cbn beta in H.
  peel_one H. peel_star H. cbn [rest endIndex captures] in H.
  peel_one H. peel_one H. peel_one H. peel_star H. cbn [rest endIndex captures] in H.
  peel_one H. peel_one H. peel_star H. cbn [rest endIndex captures] in H.
  peel_one H. injection H as <-. cbn [endIndex captures].
  apply bool_decide_eq_true in Hc, Hc0, Hc2, Hc3, Hc5, Hc7. subst.
  exists (c1 :: w), (c4 :: w0), (c6 :: w1), t11. split; [|split].
  - unfold descriptorText. by simplify_list_eq.
  - split; auto.
  - unfold descriptorMatch, descriptorText. f_equal.
    + rewrite !length_app. simpl. lia.
    + f_equal; [|f_equal; [|f_equal]].
      * apply (take_prefix _ (c6 :: w1)). simpl; lia.
      * apply (take_prefix _ (c4 :: w0)). simpl; lia.
      * rewrite (app_comm_cons w), (app_assoc (lit HOST) (c1 :: w)).
        apply take_prefix. rewrite length_app; simpl; lia.
Qed.

Lemma one_ok cs c t i m k :
  accepts cs c = true → one cs (mkState (c :: t) i m) k = k (mkState t (S i) m).
Proof. intros Hc. unfold one; simpl. by rewrite Hc. Qed.

Lemma chars_ok l t i m k :
  chars l (mkState (l ++ t) i m) k = k (mkState t (i + length l)%nat m).
Proof.
  destruct (chars l (mkState (l ++ t) i m) k) as [r|] eqn:H.
  - apply chars_Some in H as (t' & Ht & H). simpl in *. by simplify_list_eq.
  - destruct (k _) as [r|] eqn:Hk; [|done].
    assert (chars l (mkState (l ++ t) i m) k = Some r) as H'; [|congruence].
    apply chars_Some. by exists t.
Qed.

Lemma matchAt_regex_complete body w h t i :
  wellFormed body w h →
  matchAt regex (descriptorText body w h ++ t) i = Some (descriptorMatch i body w h).
Proof.
  intros [Hb1 Hb Hw1 Hw Hh1 Hh].
  destruct body as [|b body]; [done|]. destruct w as [|d w]; [done|].
  destruct h as [|d' h]; [done|].
  apply Forall_cons in Hb as [Hb0 Hb], Hw as [Hw0 Hw], Hh as [Hh0 Hh].
  unfold matchAt. cbn [run regex]. unfold descriptorText.
  rewrite <- !app_assoc. cbn [app].
  rewrite one_ok by done. rewrite one_ok by done. rewrite chars_ok.
  rewrite one_ok by done. cbn [rest endIndex captures].
  rewrite star_greedy; [|intros; by apply (one_reject (NotChar QUOTE)); [apply notQuote_reject|]|done|done].
  cbn [rest endIndex captures].
  rewrite one_ok by done. rewrite one_ok by done. rewrite one_ok by done.
  cbn [rest endIndex captures].
  rewrite star_greedy; [|intros; by apply (one_reject Digit); [by apply digit_reject|]|done|done].
  cbn [rest endIndex captures].
  rewrite one_ok by done. rewrite one_ok by done.
  cbn [rest endIndex captures].
  rewrite star_greedy; [|intros; by apply (one_reject Digit); [by apply digit_reject|]|done|done].
  cbn [rest endIndex captures].
  rewrite one_ok by done. cbn [endIndex captures].
  unfold descriptorMatch, descriptorText. f_equal. f_equal.
  - rewrite !length_app. simpl. lia.
  - f_equal; [|f_equal; [|f_equal]].
    + apply (take_prefix _ (d' :: h)). simpl; lia.
    + apply (take_prefix _ (d :: w)). simpl; lia.
    + rewrite (app_comm_cons body), (app_assoc (lit HOST) (b :: body)).
      apply take_prefix. rewrite length_app; simpl; lia.
Qed.

Lemma descriptorText_length body w h :
  length (descriptorText body w h) = (40 + length body + length w + length h)%nat.
Proof.
  unfold descriptorText. rewrite !length_app.
  change (length (lit HOST)) with 34%nat. simpl. lia.
Qed.

Lemma matchAt_regex_bounds s i m :
  matchAt regex s i = Some m →
  index m = i ∧ (i < lastIndex m ≤ i + length s)%nat.
Proof.
  intros (body & w & h & t & -> & _ & ->)%matchAt_regex_Some.
  unfold descriptorMatch; cbn [index lastIndex].
  rewrite length_app, descriptorText_length. lia.
Qed.

Lemma search_Some p s i m :
  search p s i = Some m →
  ∃ k, (k ≤ length s)%nat ∧ matchAt p (drop k s) (i + k) = Some m ∧
       ∀ j, (j < k)%nat → matchAt p (drop j s) (i + j) = None.
Proof.
  revert i. induction s as [|c s IH]; intros i; simpl.
  - destruct (matchAt p [] i) eqn:H0; [|done]. intros [= ->].
    exists 0%nat. rewrite Nat.add_0_r. split; [done|]. split; [done|]. lia.
  - destruct (matchAt p (c :: s) i) eqn:H0.
    + intros [= ->]. exists 0%nat. rewrite Nat.add_0_r.
      split; [lia|]. split; [done|]. lia.
    + intros (k & Hk & Hm & Hj)%IH. exists (S k).
      rewrite Nat.add_succ_r. split; [lia|]. split; [done|].
      intros [|j] ?; [by rewrite Nat.add_0_r|].
      rewrite Nat.add_succ_r. apply Hj. lia.
Qed.

Lemma search_None p s i :
  search p s i = None ↔
  ∀ j, (j ≤ length s)%nat → matchAt p (drop j s) (i + j) = None.
Proof.
  revert i. induction s as [|c s IH]; intros i; simpl.
  - destruct (matchAt p [] i) eqn:H0.
    + split; [done|]. intros H. specialize (H 0%nat (Nat.le_0_l _)).
      rewrite Nat.add_0_r in H. simpl in H. congruence.
    + split; [|done]. intros _ j Hj. rewrite drop_nil.
      by replace j with 0%nat by lia; rewrite Nat.add_0_r.
  - destruct (matchAt p (c :: s) i) eqn:H0.
    + split; [done|]. intros H. specialize (H 0%nat (Nat.le_0_l _)).
      rewrite Nat.add_0_r in H. simpl in H. congruence.
    + rewrite IH. split.
      * intros H [|j] Hj; [by rewrite Nat.add_0_r|].
        rewrite Nat.add_succ_r. apply H. lia.
      * intros H j Hj. specialize (H (S j)).
        rewrite Nat.add_succ_r in H. apply H. lia.
Qed.

Lemma exec_progress html i m :
  exec regex html i = Some m →
  (i ≤ index m ∧ index m < lastIndex m ≤ length html)%nat.
Proof.
  unfold exec. destruct (decide _) as [Hi|]; [|done].
  intros (k & Hk & Hm & _)%search_Some.
  apply matchAt_regex_bounds in Hm as [-> Hm].
  rewrite !length_drop in Hm. rewrite length_drop in Hk. lia.
Qed.

(** A value together with the equation that it is the value of [a]. *)
Definition inspect {A} (a : A) : {b | a = b} := exist _ a eq_refl.

(** The [while] loop of [fetchGooglePhotos], entered with [regex.lastIndex]
    equal to [i]: the array [photos] when the loop is left, with the value
    of [regex.lastIndex] at that point. *)
Equations? loop (html : str) (i : nat) (photos : list Photo)
    (seenUrls : gset str) : list Photo * nat by wf (length html - i)%nat lt :=
  loop html i photos seenUrls with inspect (exec regex html i) := {
    | exist _ None _ => (photos, 0%nat)
    | exist _ (Some m) E =>
        let st := accept m photos seenUrls in
        if (6 <=? length st.1)%nat then (st.1, lastIndex m)
        else loop html (lastIndex m) st.1 st.2 }.
Proof. apply exec_progress in E. lia. Qed.

Lemma loop_eq html i photos seenUrls :
  loop html i photos seenUrls =
  match exec regex html i with
  | None => (photos, 0%nat)
  | Some m =>
      let st := accept m photos seenUrls in
      if (6 <=? length st.1)%nat then (st.1, lastIndex m)
      else loop html (lastIndex m) st.1 st.2
  end.
Proof.
  rewrite loop_equation_1. unfold loop_unfold_clause_1, inspect.
  by destruct (exec regex html i).
Qed.

(** Lines 25-55: the scan of the page text.  The pattern object, the array
    and the set are created by the call, so the loop is entered with
    [lastIndex] 0, no photo and no URL seen. *)
Definition extract (html : str) : list Photo :=
  (loop html 0 [] ∅).1.

(** The position of the scan when [extract] leaves the loop. *)
Definition stopIndex (html : str) : nat :=
  (loop html 0 [] ∅).2.

(** *** The network and the [try]/[catch] around the scan *)

(** How a statement completes: normally with a value, or by throwing. *)
Inductive Completion (A : Type) :=
| Normal (a : A)
| Throw (message : string).
Arguments Normal {A} a.
Arguments Throw {A} message.

#[global] Instance Completion_ret : MRet Completion := λ A a, Normal a.
#[global] Instance Completion_bind : MBind Completion := λ A B f c,
  match c with
  | Normal a => f a
  | Throw e => Throw e
  end.

(** What [fetch] of the relay URL settles to: the status line of the
    response and what reading its body gives. *)
Record Response := mkResponse {
  ok : bool;
  status : nat;
  text : Completion str
}.

(** The [try] block of [fetchGooglePhotos]; the relay's answer stands for
    the two [await]s.  Console output is not modelled. *)
Definition fetchAttempt (fetched : Completion Response)
    : Completion (list Photo) :=
  response ← fetched;
  if negb (ok response) then Throw "Failed to fetch album"
  else
    html ← text response;
    mret (extract html).

(** [fetchGooglePhotos]: the [catch] clause turns every throw into the
    empty array. *)
Definition fetchGooglePhotos (fetched : Completion Response) : list Photo :=
  match fetchAttempt fetched with
  | Normal photos => photos
  | Throw _ => []
  end.

(** ** The grid: [renderGallery] *)

(** DOM elements, with the properties the script sets. *)
#[warnings="-register-all"]
Inductive Node := mkNode {
  tagName : string;
  className : string;
  src : option str;
  alt : option string;
  loading : option string;
  textContent : option string;
  childNodes : list Node
}.

Definition createElement (tag : string) : Node :=
  mkNode tag "" None None None None [].

Definition setClassName (n : Node) (c : string) : Node :=
  mkNode (tagName n) c (src n) (alt n) (loading n) (textContent n) (childNodes n).
Definition setSrc (n : Node) (u : str) : Node :=
  mkNode (tagName n) (className n) (Some u) (alt n) (loading n) (textContent n)
    (childNodes n).
Definition setAlt (n : Node) (a : string) : Node :=
  mkNode (tagName n) (className n) (src n) (Some a) (loading n) (textContent n)
    (childNodes n).
Definition setLoading (n : Node) (l : string) : Node :=
  mkNode (tagName n) (className n) (src n) (alt n) (Some l) (textContent n)
    (childNodes n).
Definition setTextContent (n : Node) (t : string) : Node :=
  mkNode (tagName n) (className n) (src n) (alt n) (loading n) (Some t) [].
Definition setChildNodes (n : Node) (l : list Node) : Node :=
  mkNode (tagName n) (className n) (src n) (alt n) (loading n) (textContent n) l.
Definition appendChild (n child : Node) : Node :=
  setChildNodes n (childNodes n ++ [child]).

(** [array.forEach((x, index) => ...)] as a loop over a state. *)
Fixpoint forEach {A St : Type} (f : A → nat → St → St) (l : list A)
    (index : nat) (st : St) : St :=
  match l with
  | [] => st
  | x :: l' => forEach f l' (S index) (f x index st)
  end.

(** The caption overlay of the first and the sixth item. *)
Definition overlay : Node :=
  let overlay := createElement "div" in
  let overlay := setClassName overlay
    "absolute inset-0 bg-gradient-to-t from-black/70 via-transparent to-transparent opacity-0 group-hover:opacity-100 transition-opacity duration-300 flex flex-col justify-end p-6" in
  let p1 := createElement "p" in
  let p1 := setClassName p1
    "text-white font-bold text-xl translate-y-4 group-hover:translate-y-0 transition-transform" in
  let p1 := setTextContent p1 "Paciente CuidaPet" in
  let p2 := createElement "p" in
  let p2 := setClassName p2
    "text-brand-light text-sm translate-y-4 group-hover:translate-y-0 transition-transform delay-75" in
  let p2 := setTextContent p2 "Atendimento Domiciliar" in
  let overlay := appendChild overlay p1 in
  appendChild overlay p2.

(** The body of the [forEach] callback: the element built for [photo] at
    position [index]. *)
Definition renderItem (photo : Photo) (index : nat) : Node :=
  let div := createElement "div" in
  let img := createElement "img" in
  let classes :=
    "relative group overflow-hidden rounded-3xl shadow-md cursor-pointer bg-gray-100" in
  let classes :=
    if (index =? 0)%nat then classes +:+ " col-span-2 row-span-2"
    else if (index =? 5)%nat then classes +:+ " col-span-2"
    else classes +:+ "" in
  let div := setClassName div classes in
  let img := setSrc img (url photo) in
  let img := setAlt img "Foto da Galeria CuidaPet" in
  let img := setClassName img
    "w-full h-full object-cover transition-transform duration-700 group-hover:scale-110" in
  let img := setLoading img "lazy" in
  let div :=
    if (index =? 0)%nat || (index =? 5)%nat then appendChild div overlay
    else div in
  appendChild div img.

(** The paragraph that [innerHTML] is set to when there is no photo. *)
Definition unavailable : Node :=
  setTextContent
    (setClassName (createElement "p") "text-center text-gray-500 col-span-full")
    "Não foi possível carregar as fotos no momento.".

(** [renderGallery], on the element with id [gallery-grid] when the document
    has one; the result is that element after the call. *)
Definition renderGallery (container : option Node) (photos : list Photo)
    : option Node :=
  match container with
  | None => None
  | Some container =>
      let container := setChildNodes container [] in
      if (length photos =? 0)%nat then
        Some (setChildNodes container [unavailable])
      else
        Some (forEach
                (λ photo index container,
                   appendChild container (renderItem photo index))
                photos 0%nat container)
  end.

(** The handler of [DOMContentLoaded]: fetch and render when the page has
    the grid. *)
Definition onDOMContentLoaded (galleryContainer : option Node)
    (fetched : Completion Response) : option Node :=
  match galleryContainer with
  | Some _ => renderGallery galleryContainer (fetchGooglePhotos fetched)
  | None => None
  end.

(** ** The request to the relay *)

(** [encodeURIComponent], after the Encode operation of the language
    standard. *)
Module URI.

(** Letters, digits and the marks [- _ . ! ~ * ' ( )] are kept. *)
Definition isUnreserved (c : N) : bool :=
  ((65 <=? c) && (c <=? 90)) || ((97 <=? c) && (c <=? 122)) || isDigit c
  || bool_decide (c ∈ lit "-_.!~*'()").

(** D800-DBFF and DC00-DFFF. *)
Definition isHighSurrogate (c : N) : bool := (55296 <=? c) && (c <=? 56319).
Definition isLowSurrogate (c : N) : bool := (56320 <=? c) && (c <=? 57343).

(** The code point of a surrogate pair. *)
Definition pairCodePoint (hi lo : N) : N :=
  (hi - 55296) * 1024 + (lo - 56320) + 65536.

(** The octets of the UTF-8 form of a code point. *)
Definition utf8 (cp : N) : list N :=
  if cp <? 128 then [cp]
  else if cp <? 2048 then [192 + cp / 64; 128 + cp mod 64]
  else if cp <? 65536 then
    [224 + cp / 4096; 128 + (cp / 64) mod 64; 128 + cp mod 64]
  else
    [240 + cp / 262144; 128 + (cp / 4096) mod 64; 128 + (cp / 64) mod 64;
     128 + cp mod 64].

(** An upper-case hexadecimal digit. *)
Definition hexDigit (d : N) : N := if d <? 10 then 48 + d else 55 + d.

(** The escape of an octet: the percent sign and two digits. *)
Definition escape (octet : N) : str :=
  [37; hexDigit (octet / 16); hexDigit (octet mod 16)].

Fixpoint encodeURIComponent (s : str) : Completion str :=
  match s with
  | [] => Normal []
  | c :: s' =>
      if isUnreserved c then
        encoded ← encodeURIComponent s'; mret (c :: encoded)
      else if isHighSurrogate c then
        match s' with
        | lo :: s'' =>
            if isLowSurrogate lo then
              encoded ← encodeURIComponent s'';
              mret ((utf8 (pairCodePoint c lo) ≫= escape) ++ encoded)
            else Throw "URIError"
        | [] => Throw "URIError"
        end
      else if isLowSurrogate c then Throw "URIError"
      else
        encoded ← encodeURIComponent s'; mret ((utf8 c ≫= escape) ++ encoded)
  end.

(** The characters of an encoded component: the kept ones and the percent
    sign. *)
Definition isEncoded (c : N) : bool := isUnreserved c || bool_decide (c = 37).

End URI.

Definition GOOGLE_PHOTOS_ALBUM_URL : str :=
  lit "https://photos.app.goo.gl/Qc4y7t5ha15qC4Q5A".

Definition RELAY : string := "https://api.allorigins.win/raw?url=".

(** The address that line 14 hands to [fetch]. *)
Definition requestUrl (albumUrl : str) : Completion str :=
  encoded ← URI.encodeURIComponent albumUrl;
  mret (lit RELAY ++ encoded).

(** [fetchGooglePhotos] from its argument on: [fetch] is what the network
    answers to each address.  The address is built inside the [try] block,
    so a throw of [encodeURIComponent] ends in the empty array too. *)
Definition fetchGooglePhotosFrom (fetch : str → Completion Response)
    (albumUrl : str) : list Photo :=
  match requestUrl albumUrl with
  | Normal address => fetchGooglePhotos (fetch address)
  | Throw _ => []
  end.

(** ** The scan on objects *)

(** Lines 25-55 once more, with the pattern object, the array and the set
    as objects of a store that also holds whatever earlier calls left
    behind; [regex], [photos] and [seenUrls] are references into it. *)
Module Objects.

Inductive Object :=
| RegExpObject (source : Pattern) (lastIndex : nat)
| ArrayObject (elements : list Photo)
| SetObject (members : gset str).

Abbreviation Ref := positive.
Abbreviation Heap := (gmap positive Object).

(** A new object gets a reference that is not in use. *)
Definition alloc (o : Object) (h : Heap) : Ref * Heap :=
  let r := fresh (dom h) in (r, <[r := o]> h).

Definition getRegExp (h : Heap) (r : Ref) : Completion (Pattern * nat) :=
  match h !! r with
  | Some (RegExpObject p i) => Normal (p, i)
  | _ => Throw "TypeError"
  end.

Definition getArray (h : Heap) (r : Ref) : Completion (list Photo) :=
  match h !! r with
  | Some (ArrayObject l) => Normal l
  | _ => Throw "TypeError"
  end.

Definition getSet (h : Heap) (r : Ref) : Completion (gset str) :=
  match h !! r with
  | Some (SetObject s) => Normal s
  | _ => Throw "TypeError"
  end.

(** The body of the [while] loop up to the quota test: [seenUrls.has],
    [photos.push] and [seenUrls.add] on the objects. *)
Definition iteration (m : Match) (photos seenUrls : Ref) (h : Heap)
    : Completion Heap :=
  let url := group m 1 in
  let width := parseInt (group m 2) in
  let height := parseInt (group m 3) in
  if gt width 300 && gt height 300 then
    s ← getSet h seenUrls;
    if negb (bool_decide (url ∈ s)) then
      l ← getArray h photos;
      let h := <[photos := ArrayObject (l ++ [mkPhoto url width height])]> h in
      s ← getSet h seenUrls;
      mret (<[seenUrls := SetObject (s ∪ {[url]})]> h)
    else mret h
  else mret h.

(** The [while] loop; [None] when [fuel] rounds do not reach its end. *)
Fixpoint while (fuel : nat) (html : str) (regex photos seenUrls : Ref)
    (h : Heap) : option (Completion Heap) :=
  match fuel with
  | O => None
  | S fuel =>
      match getRegExp h regex with
      | Throw e => Some (Throw e)
      | Normal (p, i) =>
          match exec p html i with
          | None => Some (Normal (<[regex := RegExpObject p 0]> h))
          | Some m =>
              let h := <[regex := RegExpObject p (RegExp.lastIndex m)]> h in
              match iteration m photos seenUrls h with
              | Throw e => Some (Throw e)
              | Normal h =>
                  match getArray h photos with
                  | Throw e => Some (Throw e)
                  | Normal l =>
                      if (6 <=? length l)%nat then Some (Normal h)
                      else while fuel html regex photos seenUrls h
                  end
              end
          end
      end
  end.

(** One call: the three objects are created, the loop runs, the reference
    of the array is returned. *)
Definition scan (html : str) (h : Heap) : option (Completion (Ref * Heap)) :=
  let '(regex, h) := alloc (RegExpObject regex 0) h in
  let '(photos, h) := alloc (ArrayObject []) h in
  let '(seenUrls, h) := alloc (SetObject ∅) h in
  match while (S (length html)) html regex photos seenUrls h with
  | Some (Normal h) => Some (Normal (photos, h))
  | Some (Throw e) => Some (Throw e)
  | None => None
  end.

(** The three objects of a running call, apart from one another. *)
Record running (h : Heap) (re ph su : Ref)
    (i : nat) (l : list Photo) (s : gset str) : Prop := mkRunning {
  run_regex : h !! re = Some (RegExpObject regex i);
  run_photos : h !! ph = Some (ArrayObject l);
  run_seenUrls : h !! su = Some (SetObject s);
  run_regex_photos : re ≠ ph;
  run_regex_seenUrls : re ≠ su;
  run_photos_seenUrls : ph ≠ su
}.

(** What the store holds outside the three objects. *)
Definition sameElsewhere (h h' : Heap) re ph su : Prop :=
  ∀ r, r ≠ re → r ≠ ph → r ≠ su → h' !! r = h !! r.

End Objects.

(** ** Vocabulary of the specification *)

(** *** Slots *)

Inductive SizeClass := LARGE | SMALL | WIDE.

Record SlotSpec := mkSlotSpec {
  sizeClass : SizeClass;
  hasOverlay : bool
}.

#[global] Instance SizeClass_eq_dec : EqDecision SizeClass.
Proof. solve_decision. Defined.
#[global] Instance SlotSpec_eq_dec : EqDecision SlotSpec.
Proof. solve_decision. Defined.

Definition classList (n : Node) : list string := String.words (className n).

(** The slot of a grid item, read off the element: two columns and two rows
    is the big item, two columns the wide one, anything else the 1x1
    default; the overlay is the [div] child that carries the caption. *)
Definition slotOf (item : Node) : SlotSpec :=
  mkSlotSpec
    (if bool_decide ("col-span-2" ∈ classList item) then
       if bool_decide ("row-span-2" ∈ classList item) then LARGE else WIDE
     else SMALL)
    (existsb (λ child, bool_decide (tagName child = "div")) (childNodes item)).

(** The grid items of the container: its [div] children (the message shown
    when there is no photo is a paragraph). *)
Definition gridItems (container : option Node) : list Node :=
  match container with
  | Some c => filter (λ n, tagName n = "div") (childNodes c)
  | None => []
  end.

Definition slots (container : option Node) : list SlotSpec :=
  slotOf <$> gridItems container.

(** The image addresses shown by the grid, item by item. *)
Definition itemUrls (item : Node) : list str :=
  omap src (filter (λ n, tagName n = "img") (childNodes item)).

Definition shownUrls (container : option Node) : list str :=
  gridItems container ≫= itemUrls.

(** The rule table of the specification's layout assigner, as a function of
    the index alone, and [assignLayout] as the specification gives it. *)
Definition slotAt (i : nat) : SlotSpec :=
  match i with
  | 0%nat => mkSlotSpec LARGE true
  | 5%nat => mkSlotSpec WIDE true
  | _ => mkSlotSpec SMALL false
  end.

Definition assignLayout (count : nat) : list SlotSpec :=
  slotAt <$> seq 0 count.

(** *** Descriptors and acceptance *)

(** Every place of the text at or after index [i] where a descriptor
    occurs, from left to right; [s] is the text from [i] on. *)
Fixpoint occurrences (s : str) (i : nat) : list Match :=
  match matchAt regex s i with
  | Some m => [m]
  | None => []
  end ++
  match s with
  | [] => []
  | _ :: s' => occurrences s' (S i)
  end.

Definition photoOf (m : Match) : Photo :=
  mkPhoto (group m 1) (parseInt (group m 2)) (parseInt (group m 3)).

(** The size filter: both dimensions above the threshold of 300. *)
Definition passesFilter (p : Photo) : bool :=
  gt (width p) 300 && gt (height p) 300.

(** The candidates of a text: the photos of its descriptors, in the order
    of the text, without those that fail the size filter. *)
Definition candidates (html : str) : list Photo :=
  filter (λ p, passesFilter p = true) (photoOf <$> occurrences html 0).

(** The first candidate of every URL, in the order of the candidates;
    [seen] are the URLs that are taken already. *)
Fixpoint firstOfEachUrl (seen : list str) (ps : list Photo) : list Photo :=
  match ps with
  | [] => []
  | p :: ps' =>
      if bool_decide (url p ∈ seen) then firstOfEachUrl seen ps'
      else p :: firstOfEachUrl (url p :: seen) ps'
  end.

Definition MAX_ITEMS : nat := 6.

(** The result the specification asks of [extract]: match, parse, filter,
    deduplicate, quota. *)
Definition accepted (html : str) : list Photo :=
  take MAX_ITEMS (firstOfEachUrl [] (candidates html)).

(** The photos accepted from the descriptors before the [j]-th one. *)
Definition acceptedBefore (html : str) (j : nat) : list Photo :=
  firstOfEachUrl []
    (filter (λ p, passesFilter p = true)
       (photoOf <$> take j (occurrences html 0))).

(** The decimal value of a run of digits. *)
Definition decimal (ds : str) : N :=
  foldl (λ acc c, 10 * acc + (c - 48)) 0 ds.

(** The reading of deduplication under which a failed occurrence of a URL
    never stands in the way of a later one: whenever the first descriptor
    of a URL fails the size filter and a later descriptor of that URL
    passes it, the photo of the later one is in the result. *)
Definition laterOccurrenceAccepted (html : str) : Prop :=
  ∀ j1 j2 m1 m2,
    occurrences html 0 !! j1 = Some m1 →
    occurrences html 0 !! j2 = Some m2 →
    (j1 < j2)%nat →
    group m2 1 = group m1 1 →
    (∀ j m, (j < j1)%nat → occurrences html 0 !! j = Some m →
            group m 1 ≠ group m1 1) →
    passesFilter (photoOf m1) = false →
    passesFilter (photoOf m2) = true →
    photoOf m2 ∈ extract html.

(** ** Sample pages *)

(** The text of one descriptor, as the album page embeds it. *)
Definition descriptor (path width height : string) : str :=
  [LBRACKET; QUOTE] ++ lit HOST ++ lit path ++ [QUOTE; COMMA]
    ++ lit width ++ [COMMA] ++ lit height ++ [RBRACKET].

Definition page (descriptors : list str) : str :=
  lit "<script>data:[" ++ mjoin ((λ d, d ++ lit ",null,") <$> descriptors)
    ++ lit "]</script>".

(** Eight descriptors: two below the threshold, one repeated URL. *)
Definition albumPage : str :=
  page [descriptor "a" "1600" "1200"; descriptor "icon" "64" "64";
        descriptor "b" "1200" "1600"; descriptor "a" "1600" "1200";
        descriptor "c" "800" "600"; descriptor "thumb" "300" "300";
        descriptor "d" "640" "480"; descriptor "e" "1024" "768"].

(** Six photos, then a URL that first fails the filter and then passes. *)
Definition fullPage : str :=
  page [descriptor "a" "1600" "1200"; descriptor "b" "1200" "1600";
        descriptor "c" "800" "600"; descriptor "d" "640" "480";
        descriptor "e" "1024" "768"; descriptor "f" "400" "400";
        descriptor "g" "100" "100"; descriptor "g" "900" "900"].

(** A URL that first fails the filter and then passes, within the quota. *)
Definition retryPage : str :=
  page [descriptor "a" "1600" "1200"; descriptor "g" "100" "100";
        descriptor "g" "900" "900"].

Definition photo (path : string) (w h : N) : Photo :=
  mkPhoto (lit HOST ++ lit path) (Finite w) (Finite h).

Definition emptyGrid : Node :=
  setClassName (createElement "div") "grid grid-cols-4 gap-4".

(** * Properties *)

(** ** The grid *)

Section Layout.

Implicit Types (photos : list Photo) (container : Node).

Lemma forEach_appendChild photos k container :
  forEach (λ photo index c, appendChild c (renderItem photo index))
    photos k container =
  setChildNodes container
    (childNodes container ++ imap (λ j photo, renderItem photo (k + j)) photos).
Proof.
  revert k container. induction photos as [|p photos IH]; intros k c; simpl.
  - rewrite app_nil_r. by destruct c.
  - rewrite IH. unfold appendChild, setChildNodes; simpl.
    rewrite <- app_assoc, Nat.add_0_r. simpl. do 2 f_equal. f_equal.
    apply imap_ext. intros j x _. simpl. f_equal. lia.
Qed.

Lemma renderItem_tagName photo index : tagName (renderItem photo index) = "div".
Proof.
  unfold renderItem. by destruct (_ || _).
Qed.

Lemma slotOf_renderItem photo index : slotOf (renderItem photo index) = slotAt index.
Proof.
  do 6 (destruct index as [|index]; [by vm_compute|]). by vm_compute.
Qed.

Lemma itemUrls_renderItem photo index : itemUrls (renderItem photo index) = [url photo].
Proof.
  do 6 (destruct index as [|index]; [by vm_compute|]). by vm_compute.
Qed.

Lemma filter_imap_all {A B} (P : B → Prop) `{!∀ x, Decision (P x)}
    (f : nat → A → B) (l : list A) :
  (∀ j x, P (f j x)) → filter P (imap f l) = imap f l.
Proof.
  revert f. induction l as [|x l IH]; intros f Hf; [done|].
  rewrite imap_cons, filter_cons_True by apply Hf. f_equal.
  apply IH. intros j y. apply Hf.
Qed.

Lemma gridItems_renderGallery container photos :
  gridItems (renderGallery (Some container) photos) =
  imap (λ j photo, renderItem photo j) photos.
Proof.
  unfold renderGallery. destruct photos as [|p photos]; [done|].
  cbn [length Nat.eqb]. rewrite forEach_appendChild.
  cbn [gridItems setChildNodes childNodes app].
  apply (filter_imap_all (λ n, tagName n = "div")). intros j x.
  apply renderItem_tagName.
Qed.

Lemma slots_renderGallery container photos :
  slots (renderGallery (Some container) photos) = assignLayout (length photos).
Proof.
  unfold slots, assignLayout. rewrite gridItems_renderGallery.
  rewrite fmap_imap, <- imap_seq_0. apply imap_ext. intros j x _.
  apply slotOf_renderItem.
Qed.

Lemma shownUrls_renderGallery container photos :
  shownUrls (renderGallery (Some container) photos) = url <$> photos.
Proof.
  unfold shownUrls. rewrite gridItems_renderGallery.
  assert (∀ f : nat → Photo → Node,
            (∀ j p, itemUrls (f j p) = [url p]) →
            imap f photos ≫= itemUrls = url <$> photos) as Hgen.
  { induction photos as [|p photos IH]; intros f Hf; [done|].
    rewrite imap_cons, bind_cons, Hf, IH; [done|].
    intros j q. apply Hf. }
  apply Hgen. intros j p. apply itemUrls_renderItem.
Qed.

End Layout.

(** ** Descriptors in a text *)

Section Descriptors.

Implicit Types (s t html : str) (m : Match).

Lemma drop_cons_lookup {A} (l r : list A) j x :
  drop j l = x :: r → l !! j = Some x ∧ drop (S j) l = r.
Proof.
  revert j. induction l as [|y l IH]; intros [|j]; simpl; try done.
  - intros [= -> ->]. by rewrite drop_0.
  - apply IH.
Qed.

(** A descriptor starts with a bracket, a quote and the [h] of the host. *)
Lemma matchAt_regex_start s i m :
  matchAt regex s i = Some m → ∃ r, s = LBRACKET :: QUOTE :: 104 :: r.
Proof.
  intros (body & w & h & t & -> & _ & _)%matchAt_regex_Some.
  unfold descriptorText. by eexists.
Qed.

Lemma no_inner_start X Y t j r :
  Forall (λ c, c ≠ QUOTE) X → Forall (λ c, c ≠ LBRACKET) Y →
  (0 < j < 4 + length X + length Y)%nat →
  drop j (LBRACKET :: QUOTE :: X ++ QUOTE :: COMMA :: Y ++ t)
    ≠ LBRACKET :: QUOTE :: 104 :: r.
Proof.
  intros HX HY Hj Hd.
  apply drop_cons_lookup in Hd as [H0 Hd].
  apply drop_cons_lookup in Hd as [H1 Hd].
  apply drop_cons_lookup in Hd as [H2 _].
  destruct j as [|[|j]]; [lia|done|]. simpl in H0, H1, H2.
  destruct (decide (S j < length X)%nat) as [Hlt|Hge].
  - rewrite lookup_app_l in H1 by done.
    by eapply Forall_lookup_1 in H1; [|exact HX].
  - destruct (decide (S j = length X)) as [Heq|Hne].
    + rewrite lookup_app_r in H2 by lia.
      by replace (S (S j) - length X)%nat with 1%nat in H2 by lia.
    + rewrite lookup_app_r in H0 by lia.
      destruct (j - length X)%nat as [|[|k]] eqn:Hk; [done..|].
      simpl in H0. rewrite lookup_app_l in H0 by lia.
      by eapply Forall_lookup_1 in H0; [|exact HY].
Qed.

(** No descriptor starts inside another one. *)
Lemma descriptor_no_inner_start body w h t j r :
  wellFormed body w h →
  (0 < j < length (descriptorText body w h))%nat →
  drop j (descriptorText body w h ++ t) ≠ LBRACKET :: QUOTE :: 104 :: r.
Proof.
  intros [_ Hb _ Hw _ Hh] Hj.
  rewrite descriptorText_length in Hj.
  assert (descriptorText body w h ++ t
          = LBRACKET :: QUOTE :: (lit HOST ++ body) ++ QUOTE :: COMMA
              :: (w ++ [COMMA] ++ h ++ [RBRACKET]) ++ t) as ->.
  { unfold descriptorText. by simplify_list_eq. }
  assert (∀ l, Forall (λ c, accepts Digit c = true) l →
               Forall (λ c, c ≠ LBRACKET) l) as Hd.
  { intros l Hl. eapply Forall_impl; [exact Hl|]. simpl. by intros c Hc ->. }
  apply no_inner_start.
  - apply Forall_app. split; [by vm_compute; repeat constructor|].
    eapply Forall_impl; [exact Hb|]. simpl. by intros c Hc ->.
  - rewrite !Forall_app. repeat split; auto; by repeat constructor.
  - rewrite !length_app. change (length (lit HOST)) with 34%nat. simpl. lia.
Qed.

Lemma matchAt_no_overlap s i m j i' :
  matchAt regex s i = Some m → (0 < j < lastIndex m - i)%nat →
  matchAt regex (drop j s) i' = None.
Proof.
  intros (body & w & h & t & -> & Hwf & ->)%matchAt_regex_Some Hj.
  unfold descriptorMatch in Hj; cbn [lastIndex] in Hj.
  destruct (matchAt regex (drop j _) i') as [m'|] eqn:Hm'; [|done].
  apply matchAt_regex_start in Hm' as [r Hr].
  apply descriptor_no_inner_start in Hr; [done..|lia].
Qed.

Lemma occurrences_skip s i k :
  (k ≤ length s)%nat →
  (∀ j, (j < k)%nat → matchAt regex (drop j s) (i + j) = None) →
  occurrences s i = occurrences (drop k s) (i + k).
Proof.
  revert s i. induction k as [|k IH]; intros s i Hk Hnone.
  - by rewrite drop_0, Nat.add_0_r.
  - destruct s as [|c s]; [simpl in Hk; lia|].
    cbn [occurrences]. specialize (Hnone 0%nat ltac:(lia)) as H0.
    rewrite Nat.add_0_r in H0. simpl in H0. rewrite H0. simpl.
    rewrite Nat.add_succ_r. apply IH; [simpl in Hk; lia|].
    intros j Hj. specialize (Hnone (S j) ltac:(lia)).
    by rewrite Nat.add_succ_r in Hnone.
Qed.

Lemma occurrences_none s i :
  (∀ j, (j ≤ length s)%nat → matchAt regex (drop j s) (i + j) = None) →
  occurrences s i = [].
Proof.
  intros Hnone.
  rewrite (occurrences_skip s i (length s)) by (intros; auto with lia).
  pose proof (Hnone (length s) ltac:(done)) as H.
  rewrite drop_all in H |- *. cbn [occurrences]. by rewrite H.
Qed.

Lemma occurrences_cons s i m :
  matchAt regex s i = Some m →
  occurrences s i = m :: occurrences (drop (lastIndex m - i) s) (lastIndex m).
Proof.
  intros Hm. pose proof (matchAt_regex_bounds _ _ _ Hm) as [_ Hb].
  destruct s as [|c s]; [simpl in Hb; lia|].
  cbn [occurrences]. rewrite Hm. simpl. f_equal.
  rewrite (occurrences_skip s (S i) (lastIndex m - i - 1)).
  - replace (lastIndex m - i)%nat with (S (lastIndex m - i - 1)) by lia.
    simpl. f_equal; [f_equal|]; lia.
  - simpl in Hb. lia.
  - intros j Hj. by apply (matchAt_no_overlap _ _ _ (S j) (S i + j)) in Hm; [|lia].
Qed.

Lemma exec_Some_occurrences html i m :
  exec regex html i = Some m →
  occurrences (drop i html) i
  = m :: occurrences (drop (lastIndex m) html) (lastIndex m).
Proof.
  intros Hex. pose proof (exec_progress _ _ _ Hex) as Hb. revert Hex.
  unfold exec. destruct (decide _) as [Hi|]; [|done].
  intros (k & Hk & Hm & Hnone)%search_Some.
  rewrite (occurrences_skip _ _ k) by done.
  rewrite (occurrences_cons _ _ _ Hm). f_equal.
  rewrite !drop_drop. f_equal.
  apply matchAt_regex_bounds in Hm as [? ?]. f_equal. lia.
Qed.

Lemma exec_None_occurrences html i :
  exec regex html i = None → (i ≤ length html)%nat →
  occurrences (drop i html) i = [].
Proof.
  unfold exec. intros Hex Hi. rewrite decide_True in Hex by done.
  apply occurrences_none. by apply search_None.
Qed.

Lemma elem_of_occurrences s i m :
  m ∈ occurrences s i ↔
  ∃ j, (j ≤ length s)%nat ∧ matchAt regex (drop j s) (i + j) = Some m.
Proof.
  revert i. induction s as [|c s IH]; intros i; cbn [occurrences].
  - rewrite app_nil_r. split.
    + destruct (matchAt regex [] i) eqn:H0; [|by intros ?%elem_of_nil].
      intros ->%list_elem_of_singleton. exists 0%nat.
      by rewrite Nat.add_0_r.
    + intros (j & Hj & Hm). rewrite drop_nil in Hm.
      replace j with 0%nat in Hm by (simpl in Hj; lia).
      rewrite Nat.add_0_r in Hm. rewrite Hm. by left.
  - rewrite elem_of_app, IH. split.
    + intros [Hm|(j & Hj & Hm)].
      * destruct (matchAt regex (c :: s) i) eqn:H0; [|by apply elem_of_nil in Hm].
        apply list_elem_of_singleton in Hm as ->. exists 0%nat.
        rewrite Nat.add_0_r. split; [lia|done].
      * exists (S j). rewrite Nat.add_succ_r. split; [simpl; lia|done].
    + intros ([|j] & Hj & Hm).
      * left. rewrite Nat.add_0_r in Hm. simpl in Hm. rewrite Hm. by left.
      * right. exists j. rewrite Nat.add_succ_r in Hm. split; [simpl in Hj; lia|done].
Qed.

(** What a match of the pattern carries. *)
Lemma matchAt_regex_groups s i m :
  matchAt regex s i = Some m →
  ∃ body w h, wellFormed body w h ∧
    group m 1 = lit HOST ++ body ∧ group m 2 = w ∧ group m 3 = h.
Proof.
  intros (body & w & h & t & _ & Hwf & ->)%matchAt_regex_Some.
  by exists body, w, h.
Qed.

Lemma occurrences_groups s i m :
  m ∈ occurrences s i →
  ∃ body w h, wellFormed body w h ∧
    group m 1 = lit HOST ++ body ∧ group m 2 = w ∧ group m 3 = h.
Proof.
  intros (j & _ & Hm)%elem_of_occurrences. by eapply matchAt_regex_groups.
Qed.

(** A match is decided by the text up to its end. *)
Lemma matchAt_prefix s1 s2 j m e :
  take e s1 = take e s2 →
  matchAt regex (drop j s1) j = Some m → (lastIndex m ≤ e)%nat →
  matchAt regex (drop j s2) j = Some m.
Proof.
  intros Heq (body & w & h & t & Hs & Hwf & ->)%matchAt_regex_Some He.
  unfold descriptorMatch in He; cbn [lastIndex] in He.
  assert (take (e - j) (drop j s1) = take (e - j) (drop j s2)) as Hd.
  { rewrite !take_drop_commute. replace (j + (e - j))%nat with e by lia.
    by rewrite Heq. }
  rewrite Hs, take_app, take_ge in Hd by lia.
  rewrite <- (take_drop (e - j) (drop j s2)), <- Hd, <- app_assoc.
  by apply matchAt_regex_complete.
Qed.

Lemma search_complete p s i k m :
  (k ≤ length s)%nat →
  matchAt p (drop k s) (i + k) = Some m →
  (∀ j, (j < k)%nat → matchAt p (drop j s) (i + j) = None) →
  search p s i = Some m.
Proof.
  revert s i. induction k as [|k IH]; intros s i Hk Hm Hnone.
  - rewrite drop_0, Nat.add_0_r in Hm. destruct s; simpl; by rewrite Hm.
  - destruct s as [|c s]; [simpl in Hk; lia|]. simpl.
    specialize (Hnone 0%nat ltac:(lia)) as H0.
    rewrite Nat.add_0_r in H0. simpl in H0. rewrite H0.
    apply IH; [simpl in Hk; lia| |].
    { by replace (S i + k)%nat with (i + S k)%nat by lia. }
    intros j Hj. specialize (Hnone (S j) ltac:(lia)).
    by rewrite Nat.add_succ_r in Hnone.
Qed.

(** [exec] reads the text no further than the end of the match it finds. *)
Lemma exec_prefix html html' i m e :
  take e html = take e html' →
  exec regex html i = Some m → (lastIndex m ≤ e)%nat →
  exec regex html' i = Some m.
Proof.
  intros Heq Hex He. pose proof (exec_progress _ _ _ Hex) as Hb. revert Hex.
  unfold exec. destruct (decide _) as [Hi|]; [|done].
  intros (k & Hk & Hm & Hnone)%search_Some.
  rewrite drop_drop in Hm. rewrite length_drop in Hk.
  pose proof (matchAt_regex_bounds _ _ _ Hm) as [Hidx Hend].
  assert (length (take e html) = length (take e html')) as Hlen by by rewrite Heq.
  rewrite !length_take in Hlen.
  rewrite decide_True by lia.
  pose proof (matchAt_prefix _ _ _ _ _ Heq Hm He) as Hm'.
  apply (search_complete _ _ _ k).
  - rewrite length_drop. lia.
  - by rewrite drop_drop.
  - intros j Hj. rewrite drop_drop.
    destruct (matchAt regex (drop (i + j) html') (i + j)) as [m'|] eqn:Hj'; [|done].
    exfalso. destruct (decide (lastIndex m' ≤ e)%nat) as [Hle|Hgt].
    + apply (matchAt_prefix _ html _ _ e) in Hj'; [|done..].
      specialize (Hnone j Hj). rewrite drop_drop in Hnone. congruence.
    + apply (matchAt_no_overlap _ _ _ (k - j) (i + k)) in Hj'; [|lia].
      rewrite drop_drop in Hj'.
      replace (i + j + (k - j))%nat with (i + k)%nat in Hj' by lia. congruence.
Qed.

End Descriptors.

(** ** Dimensions *)

Section Numbers.

Lemma digitsValue_digits acc count ds :
  Forall (λ c, accepts Digit c = true) ds →
  digitsValue acc count ds
  = (foldl (λ acc c, 10 * acc + (c - 48)) acc ds, (count + length ds)%nat).
Proof.
  intros Hds. revert acc count.
  induction Hds as [|c ds Hc _ IH]; intros acc count; simpl.
  - by rewrite Nat.add_0_r.
  - simpl in Hc. rewrite Hc, IH. f_equal. lia.
Qed.

Lemma parseInt_digits ds :
  ds ≠ [] → Forall (λ c, accepts Digit c = true) ds →
  parseInt ds = toNumber (decimal ds).
Proof.
  intros Hne Hds. unfold parseInt. rewrite digitsValue_digits by done.
  destruct ds; [done|]. done.
Qed.

(** Rounding to a Number does not move a value across a small integer. *)
Lemma gt_toNumber n k : k < 2 ^ 52 → gt (toNumber n) k = (k <? n).
Proof.
  intros Hk. unfold toNumber.
  destruct (n <? 2 ^ 53) eqn:Hn; [done|].
  apply N.ltb_ge in Hn.
  assert (2 ^ 52 < 2 ^ 53) as H5253 by (by apply N.pow_lt_mono_r).
  assert ((k <? n) = true) as -> by (apply N.ltb_lt; lia).
  cbv zeta. set (e := N.log2 n - 52). set (q := N.shiftr n e).
  assert (53 ≤ N.log2 n) as Hlog.
  { rewrite <- (N.log2_pow2 53) by done. by apply N.log2_le_mono. }
  assert (0 < 2 ^ e) as Hpos by (apply N.neq_0_lt_0, N.pow_nonzero; lia).
  assert (2 ^ 52 ≤ q) as Hq.
  { unfold q. rewrite N.shiftr_div_pow2.
    assert (2 ^ 52 * 2 ^ e ≤ n) as Hle.
    { rewrite <- N.pow_add_r. replace (52 + e) with (N.log2 n) by (unfold e; lia).
      apply N.log2_spec. lia. }
    apply N.div_le_lower_bound; lia. }
  assert (∀ q', q ≤ q' →
            gt (if 2 ^ 1024 <=? q' * 2 ^ e then Infinity
                else Finite (q' * 2 ^ e)) k = true) as Hgen.
  { intros q' Hq'. destruct (_ <=? _); [done|]. simpl. apply N.ltb_lt. nia. }
  destruct (_ || _); apply Hgen; lia.
Qed.

End Numbers.

(** ** The scan *)

Section Scan.

Implicit Types (html : str) (photos : list Photo) (seenUrls : gset str).

Lemma accept_eq m photos seenUrls :
  accept m photos seenUrls =
  if passesFilter (photoOf m) && negb (bool_decide (url (photoOf m) ∈ seenUrls))
  then (photos ++ [photoOf m], seenUrls ∪ {[url (photoOf m)]})
  else (photos, seenUrls).
Proof.
  unfold accept, passesFilter, photoOf. cbn [url width height].
  by destruct (gt _ _ && gt _ _), (bool_decide _).
Qed.

Lemma firstOfEachUrl_ext (s1 s2 : list str) ps :
  (∀ u, u ∈ s1 ↔ u ∈ s2) → firstOfEachUrl s1 ps = firstOfEachUrl s2 ps.
Proof.
  revert s1 s2. induction ps as [|p ps IH]; intros s1 s2 Hs; [done|]. simpl.
  rewrite (bool_decide_ext _ _ (Hs (url p))).
  destruct (bool_decide _); [by apply IH|]. f_equal. apply IH.
  intros u. rewrite !elem_of_cons. by rewrite Hs.
Qed.

(** The loop, entered anywhere with fewer than six photos, returns what
    the specification's pipeline makes of the rest of the text. *)
Lemma loop_accepted html i photos seenUrls (seen : list str) :
  (i ≤ length html)%nat →
  (∀ u, u ∈ seenUrls ↔ u ∈ seen) →
  (length photos < 6)%nat →
  (loop html i photos seenUrls).1 =
  take 6 (photos ++ firstOfEachUrl seen
            (filter (λ p, passesFilter p = true)
               (photoOf <$> occurrences (drop i html) i))).
Proof.
  remember (length html - i)%nat as n eqn:Hn.
  revert i photos seenUrls seen Hn.
  induction (lt_wf n) as [n _ IH]. intros i photos seenUrls seen -> Hi Hseen Hlen.
  rewrite loop_eq. destruct (exec regex html i) as [m|] eqn:Hex.
  - pose proof (exec_progress _ _ _ Hex) as Hb.
    rewrite (exec_Some_occurrences _ _ _ Hex), fmap_cons.
    rewrite accept_eq. cbn zeta.
    destruct (passesFilter (photoOf m)) eqn:Hpass; cbn [andb].
    + rewrite filter_cons_True by done. cbn [firstOfEachUrl].
      rewrite <- (bool_decide_ext _ _ (Hseen (url (photoOf m)))).
      destruct (bool_decide (url (photoOf m) ∈ seenUrls)) eqn:Hin; cbn [negb fst snd].
      * assert ((6 <=? length photos)%nat = false) as ->
          by (apply Nat.leb_gt; lia).
        eapply IH; [|reflexivity|lia|done|done]; lia.
      * destruct (6 <=? length (photos ++ [photoOf m]))%nat eqn:H6.
        -- cbn [fst]. apply Nat.leb_le in H6. rewrite length_app in H6. simpl in H6.
           rewrite (cons_middle _ photos (firstOfEachUrl _ _)), app_assoc.
           rewrite take_app_length'; [done|].
           rewrite length_app; simpl; lia.
        -- apply Nat.leb_gt in H6.
           rewrite (cons_middle _ photos (firstOfEachUrl _ _)), app_assoc.
           eapply IH; [|reflexivity|lia| |done]; [lia|].
           intros u. apply bool_decide_eq_false in Hin.
           rewrite elem_of_union, elem_of_singleton, elem_of_cons, Hseen. tauto.
    + rewrite filter_cons_False by (by rewrite Hpass).
      cbn [fst snd]. assert ((6 <=? length photos)%nat = false) as ->
          by (apply Nat.leb_gt; lia).
      eapply IH; [|reflexivity|lia|done|done]; lia.
  - rewrite (exec_None_occurrences _ _ Hex Hi). cbn [fst]. simpl.
    rewrite app_nil_r, take_ge; [done|lia].
Qed.

(** [extract] computes the specification's pipeline. *)
Lemma extract_accepted html : extract html = accepted html.
Proof.
  unfold extract, accepted, candidates, MAX_ITEMS.
  rewrite (loop_accepted html 0 [] ∅ []); [by rewrite drop_0| lia |
    intros u; by rewrite elem_of_nil, elem_of_empty | simpl; lia ].
Qed.

Lemma firstOfEachUrl_sublist (seen : list str) ps :
  firstOfEachUrl seen ps `sublist_of` ps.
Proof.
  revert seen. induction ps as [|p ps IH]; intros seen; simpl; [done|].
  destruct (bool_decide _); [apply sublist_cons|apply sublist_skip]; apply IH.
Qed.

Lemma firstOfEachUrl_fresh (seen : list str) ps p :
  p ∈ firstOfEachUrl seen ps → url p ∉ seen.
Proof.
  revert seen. induction ps as [|q ps IH]; intros seen; simpl.
  - by intros ?%elem_of_nil.
  - destruct (bool_decide (url q ∈ seen)) eqn:Hq; [apply IH|].
    apply bool_decide_eq_false in Hq.
    intros [->|Hp%IH]%elem_of_cons; [done|].
    intros Hin. apply Hp. by right.
Qed.

Lemma firstOfEachUrl_NoDup (seen : list str) ps :
  NoDup (url <$> firstOfEachUrl seen ps).
Proof.
  revert seen. induction ps as [|q ps IH]; intros seen; simpl.
  - constructor.
  - destruct (bool_decide (url q ∈ seen)); [apply IH|].
    rewrite fmap_cons. constructor; [|apply IH].
    intros (p & Hu & Hp%firstOfEachUrl_fresh)%list_elem_of_fmap.
    apply Hp. rewrite Hu. by left.
Qed.

Lemma accepted_sublist html :
  accepted html `sublist_of` candidates html.
Proof.
  unfold accepted. etrans; [apply sublist_take|apply firstOfEachUrl_sublist].
Qed.

Lemma candidates_sublist html :
  candidates html `sublist_of` photoOf <$> occurrences html 0.
Proof. apply sublist_filter. Qed.

Lemma accepted_passesFilter html p :
  p ∈ accepted html → passesFilter p = true.
Proof.
  intros Hp. eapply elem_of_sublist in Hp; [|apply accepted_sublist].
  by apply list_elem_of_filter in Hp as [? _].
Qed.

(** Leaving the loop with the quota filled, the scan is past where it
    was entered. *)
Lemma loop_stop_ge html i photos seenUrls :
  (length photos < 6)%nat →
  (6 ≤ length (loop html i photos seenUrls).1)%nat →
  (i ≤ (loop html i photos seenUrls).2)%nat.
Proof.
  remember (length html - i)%nat as n eqn:Hn.
  revert i photos seenUrls Hn.
  induction (lt_wf n) as [n _ IH]. intros i photos seenUrls -> Hlen.
  rewrite loop_eq. destruct (exec regex html i) as [m|] eqn:Hex.
  - pose proof (exec_progress _ _ _ Hex) as Hb. cbn zeta.
    destruct (6 <=? _)%nat eqn:H6; cbn [fst snd]; [lia|].
    apply Nat.leb_gt in H6. intros Hfull.
    etrans; [|eapply IH; [|reflexivity|done..]]; lia.
  - cbn [fst]. lia.
Qed.

(** Once the sixth photo is accepted, the text after the scan position
    plays no part in the result. *)
Lemma loop_stop html html' i photos seenUrls :
  (length photos < 6)%nat →
  (6 ≤ length (loop html i photos seenUrls).1)%nat →
  take (loop html i photos seenUrls).2 html
    = take (loop html i photos seenUrls).2 html' →
  loop html' i photos seenUrls = loop html i photos seenUrls.
Proof.
  remember (length html - i)%nat as n eqn:Hn.
  revert i photos seenUrls Hn.
  induction (lt_wf n) as [n _ IH]. intros i photos seenUrls -> Hlen.
  rewrite (loop_eq html), (loop_eq html').
  destruct (exec regex html i) as [m|] eqn:Hex.
  - pose proof (exec_progress _ _ _ Hex) as Hb. cbn zeta.
    destruct (6 <=? _)%nat eqn:H6; cbn [fst snd].
    + intros _ Heq. by rewrite (exec_prefix _ _ _ _ _ Heq Hex), H6.
    + apply Nat.leb_gt in H6. intros Hfull Heq.
      pose proof (loop_stop_ge _ _ _ _ H6 Hfull) as Hge.
      rewrite (exec_prefix _ _ _ _ _ Heq Hex Hge).
      rewrite (proj2 (Nat.leb_gt _ _) H6).
      eapply IH; [|reflexivity|done..]. lia.
  - cbn [fst]. lia.
Qed.

Lemma firstOfEachUrl_app (seen : list str) ps1 ps2 :
  firstOfEachUrl seen (ps1 ++ ps2) =
  firstOfEachUrl seen ps1
    ++ firstOfEachUrl (reverse (url <$> firstOfEachUrl seen ps1) ++ seen) ps2.
Proof.
  revert seen. induction ps1 as [|p ps1 IH]; intros seen; simpl; [done|].
  destruct (bool_decide (url p ∈ seen)); [apply IH|].
  rewrite IH. simpl. rewrite reverse_cons, <- app_assoc. done.
Qed.

(** A candidate is kept exactly when no candidate before it has its URL. *)
Lemma elem_of_firstOfEachUrl ps p :
  p ∈ firstOfEachUrl [] ps ↔
  ∃ j, ps !! j = Some p ∧
       ∀ j' q, (j' < j)%nat → ps !! j' = Some q → url q ≠ url p.
Proof.
  assert (∀ seen,
    p ∈ firstOfEachUrl seen ps ↔
    ∃ j, ps !! j = Some p ∧ (url p ∉ seen) ∧
         ∀ j' q, (j' < j)%nat → ps !! j' = Some q → url q ≠ url p) as Hgen.
  { induction ps as [|q ps IH]; intros seen; simpl.
    - split; [by intros ?%elem_of_nil|]. by intros (j & Hj & _).
    - destruct (bool_decide (url q ∈ seen)) eqn:Hq.
      + apply bool_decide_eq_true in Hq. rewrite IH. split.
        * intros (j & Hj & Hp & Hfirst). exists (S j). split; [done|].
          split; [done|]. intros [|j'] q' Hlt Hq'; simpl in Hq'.
          -- injection Hq' as <-. intros Heq. by rewrite Heq in Hq.
          -- apply (Hfirst j'); [lia|done].
        * intros ([|j] & Hj & Hp & Hfirst); simpl in Hj.
          -- injection Hj as ->. done.
          -- exists j. split; [done|]. split; [done|].
             intros j' q' Hlt Hq'. apply (Hfirst (S j')); [lia|done].
      + apply bool_decide_eq_false in Hq. rewrite elem_of_cons, IH. split.
        * intros [->|(j & Hj & Hp & Hfirst)].
          -- exists 0%nat. split; [done|]. split; [done|]. lia.
          -- exists (S j). split; [done|].
             rewrite not_elem_of_cons in Hp. destruct Hp as [Hne Hp].
             split; [done|]. intros [|j'] q' Hlt Hq'; simpl in Hq'.
             ++ injection Hq' as <-. done.
             ++ apply (Hfirst j'); [lia|done].
        * intros ([|j] & Hj & Hp & Hfirst); simpl in Hj.
          -- injection Hj as ->. by left.
          -- right. exists j. split; [done|]. split.
             ++ rewrite not_elem_of_cons. split; [|done].
                intros Heq. by apply (Hfirst 0%nat q); [lia|..].
             ++ intros j' q' Hlt Hq'. apply (Hfirst (S j')); [lia|done]. }
  rewrite Hgen. split.
  - intros (j & Hj & _ & Hfirst). eauto.
  - intros (j & Hj & Hfirst). exists j. split; [done|]. split; [|done].
    apply not_elem_of_nil.
Qed.

End Scan.

(** ** The scan on objects computes [extract] *)

Section ObjectScan.

Import Objects.

Implicit Types (h : Heap) (re ph su : Ref).

Lemma getArray_Some h r l :
  h !! r = Some (ArrayObject l) → getArray h r = Normal l.
Proof. unfold getArray. by intros ->. Qed.

Lemma getSet_Some h r s :
  h !! r = Some (SetObject s) → getSet h r = Normal s.
Proof. unfold getSet. by intros ->. Qed.

Lemma iteration_accept m h re ph su i l s :
  running h re ph su i l s →
  ∃ h', iteration m ph su h = Normal h' ∧
        running h' re ph su i (accept m l s).1 (accept m l s).2 ∧
        sameElsewhere h h' re ph su.
Proof.
  intros [Hre Hph Hsu H1 H2 H3]. unfold iteration, accept. cbv zeta.
  destruct (gt _ _ && gt _ _); [|by exists h].
  rewrite (getSet_Some _ _ _ Hsu). cbn [mbind Completion_bind].
  destruct (negb _); [|by exists h].
  rewrite (getArray_Some _ _ _ Hph). cbn [mbind Completion_bind].
  rewrite (getSet_Some _ _ s) by (by rewrite lookup_insert_ne).
  cbn [mbind Completion_bind mret Completion_ret].
  eexists. split; [done|]. split.
  - split; cbn [fst snd]; try done.
    + by rewrite !lookup_insert_ne.
    + by rewrite lookup_insert_ne, lookup_insert_eq.
    + by rewrite lookup_insert_eq.
  - intros r ? ? ?. by rewrite !lookup_insert_ne.
Qed.

(** With enough fuel the loop on objects ends normally, and the array then
    holds what the loop on values returns. *)
Lemma while_loop fuel html h re ph su i l s :
  running h re ph su i l s →
  (length html - i < fuel)%nat →
  ∃ h', while fuel html re ph su h = Some (Normal h') ∧
        h' !! ph = Some (ArrayObject (loop html i l s).1) ∧
        sameElsewhere h h' re ph su.
Proof.
  revert h i l s. induction fuel as [|fuel IH]; intros h i l s Hrun Hfuel; [lia|].
  pose proof Hrun as [Hre Hph Hsu H1 H2 H3].
  cbn [while]. unfold getRegExp. rewrite Hre, loop_eq.
  destruct (exec regex html i) as [m|] eqn:Hex.
  - pose proof (exec_progress _ _ _ Hex) as Hb. cbv zeta.
    set (h1 := <[re := RegExpObject regex (RegExp.lastIndex m)]> h).
    assert (running h1 re ph su (RegExp.lastIndex m) l s) as Hrun1.
    { split; try done; unfold h1.
      - by rewrite lookup_insert_eq.
      - by rewrite lookup_insert_ne.
      - by rewrite lookup_insert_ne. }
    destruct (iteration_accept m _ _ _ _ _ _ _ Hrun1) as (h2 & -> & Hrun2 & Hsame2).
    rewrite (getArray_Some _ _ _ (run_photos _ _ _ _ _ _ _ Hrun2)).
    destruct (6 <=? _)%nat.
    + exists h2. split; [done|]. split; [apply Hrun2|].
      intros r ? ? ?. rewrite Hsame2 by done. unfold h1. by rewrite lookup_insert_ne.
    + destruct (IH _ _ _ _ Hrun2) as (h3 & -> & Hres & Hsame3); [lia|].
      exists h3. split; [done|]. split; [done|].
      intros r ? ? ?. rewrite Hsame3, Hsame2 by done.
      unfold h1. by rewrite lookup_insert_ne.
  - eexists. split; [done|]. split.
    + by rewrite lookup_insert_ne.
    + intros r ? ? ?. by rewrite lookup_insert_ne.
Qed.

(** Whatever the store holds, a call ends normally with a new array that
    holds [extract html], and leaves the objects it found as they were. *)
Lemma scan_extract html h :
  ∃ ph h', scan html h = Some (Normal (ph, h')) ∧
    h !! ph = None ∧
    h' !! ph = Some (ArrayObject (extract html)) ∧
    ∀ r, is_Some (h !! r) → h' !! r = h !! r.
Proof.
  unfold scan, alloc. cbv zeta.
  set (re := fresh (dom h)).
  set (h1 := <[re := _]> h).
  set (ph := fresh (dom h1)).
  set (h2 := <[ph := _]> h1).
  set (su := fresh (dom h2)).
  set (h3 := <[su := _]> h2).
  assert (h !! re = None) as Hre by apply not_elem_of_dom, is_fresh.
  assert (h1 !! ph = None) as Hph by apply not_elem_of_dom, is_fresh.
  assert (h2 !! su = None) as Hsu by apply not_elem_of_dom, is_fresh.
  assert (re ≠ ph) as H1.
  { intros Heq. unfold h1 in Hph. by rewrite <- Heq, lookup_insert_eq in Hph. }
  assert (ph ≠ su) as H3.
  { intros Heq. unfold h2 in Hsu. by rewrite <- Heq, lookup_insert_eq in Hsu. }
  assert (re ≠ su) as H2.
  { intros Heq. unfold h2, h1 in Hsu.
    by rewrite <- Heq, lookup_insert_ne, lookup_insert_eq in Hsu. }
  assert (running h3 re ph su 0 [] ∅) as Hrun.
  { split; try done; unfold h3, h2, h1.
    - do 2 (rewrite lookup_insert_ne by done). by rewrite lookup_insert_eq.
    - rewrite lookup_insert_ne by done. by rewrite lookup_insert_eq.
    - by rewrite lookup_insert_eq. }
  destruct (while_loop (S (length html)) html _ _ _ _ _ _ _ Hrun)
    as (h' & -> & Hres & Hsame); [lia|].
  exists ph, h'. split; [done|]. split.
  { unfold h1 in Hph. by rewrite lookup_insert_ne in Hph. }
  split; [done|].
  intros r [o Hr].
  assert (r ≠ re) as Hr1 by congruence.
  assert (r ≠ ph) as Hr2.
  { intros ->. unfold h1 in Hph. rewrite lookup_insert_ne in Hph by done.
    congruence. }
  assert (r ≠ su) as Hr3.
  { intros ->. unfold h2, h1 in Hsu.
    do 2 (rewrite lookup_insert_ne in Hsu by done). congruence. }
  rewrite Hsame by done. unfold h3, h2, h1.
  by do 3 (rewrite lookup_insert_ne by done).
Qed.

End ObjectScan.

(** * The claims *)

Example toNumber_rounds :
  toNumber 1600 = Finite 1600 ∧
  toNumber (2 ^ 53 + 1) = Finite (2 ^ 53) ∧
  toNumber (2 ^ 53 + 3) = Finite (2 ^ 53 + 4) ∧
  toNumber (10 ^ 400) = Infinity.
Proof. by vm_compute. Qed.

Example parseInt_samples :
  parseInt (lit "0300") = Finite 300 ∧ parseInt (lit "12px") = Finite 12 ∧
  parseInt (lit "px") = NaN ∧ gt (parseInt (lit "300")) 300 = false ∧
  gt (parseInt (lit "301")) 300 = true.
Proof. by vm_compute. Qed.

Example exec_sample :
  let input := lit "x[" ++ descriptor "p=w1" "12" "7" ++ lit "]" in
  (∃ m, exec regex input 0 = Some m ∧
        index m = 2%nat ∧ lastIndex m = 49%nat ∧
        group m 1 = lit HOST ++ lit "p=w1" ∧
        group m 2 = lit "12" ∧ group m 3 = lit "7") ∧
  exec regex input 3 = None ∧
  exec regex input 100 = None.
Proof.
  cbv zeta. split; [|by vm_compute].
  destruct (exec regex _ 0) as [m|] eqn:Hm; [|by vm_compute in Hm].
  exists m. split; [done|]. vm_compute in Hm. by injection Hm as <-.
Qed.

Example extract_albumPage :
  extract albumPage
  = [photo "a" 1600 1200; photo "b" 1200 1600; photo "c" 800 600;
     photo "d" 640 480; photo "e" 1024 768].
Proof. by vm_compute. Qed.

Example extract_fullPage :
  extract fullPage
  = [photo "a" 1600 1200; photo "b" 1200 1600; photo "c" 800 600;
     photo "d" 640 480; photo "e" 1024 768; photo "f" 400 400].
Proof. by vm_compute. Qed.

Example extract_retryPage :
  extract retryPage = [photo "a" 1600 1200; photo "g" 900 900].
Proof. by vm_compute. Qed.

Example slots_fullPage :
  slots (renderGallery (Some emptyGrid) (extract fullPage))
  = [mkSlotSpec LARGE true; mkSlotSpec SMALL false; mkSlotSpec SMALL false;
     mkSlotSpec SMALL false; mkSlotSpec SMALL false; mkSlotSpec WIDE true].
Proof. by vm_compute. Qed.

(** ** The layout *)

(** C1. Whatever list is rendered, the slot at index 0 is LARGE with the
    overlay, the slots at indices 1 to 4 are SMALL without overlay and the
    slot at index 5 is WIDE with the overlay; a list that [extract]
    returned has an index 5 only when it has six photos. *)
Theorem layout_by_index container photos i photo :
  photos !! i = Some photo →
  let grid := slots (renderGallery (Some container) photos) in
  (i = 0%nat → grid !! i = Some (mkSlotSpec LARGE true)) ∧
  ((1 ≤ i ≤ 4)%nat → grid !! i = Some (mkSlotSpec SMALL false)) ∧
  (i = 5%nat →
     grid !! i = Some (mkSlotSpec WIDE true) ∧
     ∀ html, photos = extract html → length photos = 6%nat).
Proof.
  intros Hi grid. subst grid. rewrite slots_renderGallery. unfold assignLayout.
  pose proof (lookup_lt_Some _ _ _ Hi) as Hlt.
  rewrite list_lookup_fmap, lookup_seq_lt by done. simpl.
  split; [by intros ->|]. split.
  - intros [? ?]. by do 5 (destruct i as [|i]; [done || lia|]); lia.
  - intros ->. split; [done|]. intros html ->.
    rewrite extract_accepted in Hlt |- *. unfold accepted, MAX_ITEMS in *.
    rewrite length_take in Hlt |- *. lia.
Qed.

Lemma layout_by_index_witness :
  extract fullPage !! 5%nat = Some (photo "f" 400 400) ∧
  slots (renderGallery (Some emptyGrid) (extract fullPage)) !! 5%nat
    = Some (mkSlotSpec WIDE true) ∧
  length (extract fullPage) = 6%nat.
Proof.
  assert (extract fullPage !! 5%nat = Some (photo "f" 400 400)) as H
    by (by vm_compute).
  split; [exact H|].
  destruct (layout_by_index emptyGrid (extract fullPage) 5 _ H) as (_ & _ & H5).
  destruct (H5 eq_refl) as [Hslot Hlen]. split; [exact Hslot|].
  by apply (Hlen fullPage).
Defined.

(** C7. Two lists of the same length get the same slots, whatever their
    photos are, and the grid shows the photos in the order given. *)
Theorem layout_positional container1 container2 photos1 photos2 :
  length photos1 = length photos2 →
  slots (renderGallery (Some container1) photos1)
    = slots (renderGallery (Some container2) photos2) ∧
  shownUrls (renderGallery (Some container1) photos1) = url <$> photos1.
Proof.
  intros Hlen. rewrite !slots_renderGallery, Hlen. split; [done|].
  apply shownUrls_renderGallery.
Qed.

Lemma layout_positional_witness :
  length (extract albumPage) = length (take 5 (reverse (extract fullPage))) ∧
  slots (renderGallery (Some emptyGrid) (extract albumPage))
    = slots (renderGallery (Some unavailable)
               (take 5 (reverse (extract fullPage)))) ∧
  shownUrls (renderGallery (Some emptyGrid) (extract albumPage))
    = url <$> extract albumPage.
Proof.
  split; [by vm_compute|].
  apply (layout_positional emptyGrid unavailable). by vm_compute.
Defined.

(** C10. Rendering is defined for a list of any length and gives one slot
    per photo: nothing is clamped and nothing is raised, and every index
    other than 0 and 5, also beyond 5, is SMALL without overlay. *)
Theorem layout_total container photos :
  ∃ grid, renderGallery (Some container) photos = Some grid ∧
    length (slots (Some grid)) = length photos ∧
    ∀ i, (i < length photos)%nat → i ≠ 0%nat → i ≠ 5%nat →
         slots (Some grid) !! i = Some (mkSlotSpec SMALL false).
Proof.
  pose proof (slots_renderGallery container photos) as Hs.
  destruct (renderGallery (Some container) photos) as [grid|] eqn:Hr.
  - exists grid. split; [done|]. rewrite Hs. unfold assignLayout. split.
    + by rewrite length_fmap, length_seq.
    + intros i Hi H0 H5. rewrite list_lookup_fmap, lookup_seq_lt by done.
      simpl. by do 6 (destruct i as [|i]; [done|]).
  - unfold renderGallery in Hr. by destruct (_ =? _)%nat.
Qed.

Example layout_eight_photos :
  slots (renderGallery (Some emptyGrid)
           (extract fullPage ++ [photo "x" 500 500; photo "y" 500 500]))
  = [mkSlotSpec LARGE true; mkSlotSpec SMALL false; mkSlotSpec SMALL false;
     mkSlotSpec SMALL false; mkSlotSpec SMALL false; mkSlotSpec WIDE true;
     mkSlotSpec SMALL false; mkSlotSpec SMALL false].
Proof. by vm_compute. Qed.

(** ** The extraction *)

(** C2. The result never has more than six photos; when it has six, the
    scan has stopped at [stopIndex] and whatever the text holds from there
    on, further descriptors included, plays no part. *)
Theorem extract_quota html :
  (length (extract html) ≤ 6)%nat ∧
  (length (extract html) = 6%nat →
   ∀ html', take (stopIndex html) html' = take (stopIndex html) html →
            extract html' = extract html).
Proof.
  split.
  - rewrite extract_accepted. unfold accepted, MAX_ITEMS.
    rewrite length_take. lia.
  - intros Hfull html' Heq. unfold extract, stopIndex in *.
    rewrite (loop_stop html html'); [done|simpl; lia|lia|done].
Qed.

Lemma extract_quota_witness :
  length (extract fullPage) = 6%nat ∧
  take (stopIndex fullPage) (take (stopIndex fullPage) fullPage
                               ++ descriptor "h" "2000" "2000")
    = take (stopIndex fullPage) fullPage ∧
  extract (take (stopIndex fullPage) fullPage ++ descriptor "h" "2000" "2000")
    = extract fullPage.
Proof.
  assert (length (extract fullPage) = 6%nat) as Hfull by (by vm_compute).
  assert (take (stopIndex fullPage) (take (stopIndex fullPage) fullPage
                                       ++ descriptor "h" "2000" "2000")
          = take (stopIndex fullPage) fullPage) as Heq by (by vm_compute).
  split; [exact Hfull|]. split; [exact Heq|].
  exact (proj2 (extract_quota fullPage) Hfull _ Heq).
Defined.

(** C3. Every photo of the result has a width and a height above 300, and
    a descriptor whose declared width or height is 300 or less gives no
    photo of the result. *)
Theorem extract_above_threshold html :
  (∀ p, p ∈ extract html →
        gt (width p) 300 = true ∧ gt (height p) 300 = true) ∧
  (∀ m, m ∈ occurrences html 0 →
        decimal (group m 2) ≤ 300 ∨ decimal (group m 3) ≤ 300 →
        photoOf m ∉ extract html).
Proof.
  split.
  - intros p Hp. rewrite extract_accepted in Hp.
    apply accepted_passesFilter in Hp. by apply andb_true_iff in Hp.
  - intros m (body & w & h & [_ _ Hw1 Hw Hh1 Hh] & _ & H2 & H3)%occurrences_groups
      Hsmall Hin.
    rewrite extract_accepted in Hin. apply accepted_passesFilter in Hin.
    unfold passesFilter, photoOf in Hin. cbn [width height] in Hin.
    rewrite H2, H3 in Hin, Hsmall.
    rewrite !parseInt_digits, !gt_toNumber in Hin by done.
    apply andb_true_iff in Hin as [?%N.ltb_lt ?%N.ltb_lt]. lia.
Qed.

(** C4. The URLs of the photos of the result are pairwise distinct. *)
Theorem extract_urls_distinct html : NoDup (url <$> extract html).
Proof.
  rewrite extract_accepted. unfold accepted.
  rewrite fmap_take.
  eapply sublist_NoDup; [apply (firstOfEachUrl_NoDup [])|apply sublist_take].
Qed.

(** C5. The result lists, in the order of the text, the descriptors that
    pass the size filter and whose URL no earlier such descriptor has, up
    to the quota. *)
Theorem extract_order html :
  extract html = accepted html ∧
  extract html `sublist_of` photoOf <$> occurrences html 0 ∧
  ∀ p, p ∈ firstOfEachUrl [] (candidates html) ↔
       ∃ j, candidates html !! j = Some p ∧
            ∀ j' q, (j' < j)%nat → candidates html !! j' = Some q →
                    url q ≠ url p.
Proof.
  split; [apply extract_accepted|]. split.
  - rewrite extract_accepted.
    etrans; [apply accepted_sublist|apply candidates_sublist].
  - apply elem_of_firstOfEachUrl.
Qed.

(** C6. The scan completes normally on every text: the [try] block ends
    with the array that [extract] gives.  A text without descriptor, the
    empty text, and a text whose descriptors all fail the size filter give
    the empty array; a text whose descriptors all have one URL gives at
    most one photo. *)
Theorem extract_total html status :
  fetchAttempt (Normal (mkResponse true status (Normal html)))
    = Normal (extract html) ∧
  extract [] = [] ∧
  (occurrences html 0 = [] → extract html = []) ∧
  ((∀ m, m ∈ occurrences html 0 → passesFilter (photoOf m) = false) →
   extract html = []) ∧
  ((∀ m m', m ∈ occurrences html 0 → m' ∈ occurrences html 0 →
            group m 1 = group m' 1) →
   (length (extract html) ≤ 1)%nat).
Proof.
  split; [done|]. split; [by vm_compute|].
  assert (∀ p, p ∈ extract html →
               ∃ m, m ∈ occurrences html 0 ∧ p = photoOf m
                    ∧ passesFilter p = true) as Hsrc.
  { intros p Hp. rewrite extract_accepted in Hp.
    pose proof (accepted_passesFilter _ _ Hp) as Hpass.
    eapply elem_of_sublist in Hp;
      [|etrans; [apply accepted_sublist|apply candidates_sublist]].
    apply list_elem_of_fmap in Hp as (m & -> & Hm). eauto. }
  split; [|split].
  - intros Hnone. destruct (extract html) as [|p l]; [done|].
    destruct (Hsrc p) as (m & Hm & _); [by left|].
    rewrite Hnone in Hm. by apply elem_of_nil in Hm.
  - intros Hfail. destruct (extract html) as [|p l]; [done|].
    destruct (Hsrc p) as (m & Hm & -> & Hpass); [by left|].
    rewrite (Hfail m Hm) in Hpass. done.
  - intros Hsame. pose proof (extract_accepted html) as Hacc.
    assert (NoDup (url <$> extract html)) as Hnd.
    { rewrite Hacc. unfold accepted. rewrite fmap_take.
      eapply sublist_NoDup; [apply (firstOfEachUrl_NoDup [])|apply sublist_take]. }
    destruct (extract html) as [|p [|q l]]; simpl; [lia..|].
    destruct (Hsrc p) as (m & Hm & -> & _); [by left|].
    destruct (Hsrc q) as (m' & Hm' & -> & _); [by right; left|].
    rewrite !fmap_cons in Hnd. apply NoDup_cons in Hnd as [Hnotin _].
    exfalso. apply Hnotin. unfold photoOf at 1 2. cbn [url].
    rewrite (Hsame m m' Hm Hm'). by left.
Qed.

Lemma extract_total_witness :
  extract (page [descriptor "icon" "64" "64"; descriptor "thumb" "300" "300"])
    = [] ∧
  (length (extract (page [descriptor "a" "640" "480";
                           descriptor "a" "1600" "1200"])) ≤ 1)%nat.
Proof.
  split.
  - apply (extract_total _ 200%nat).
    intros m Hm. vm_compute in Hm.
    by repeat (apply elem_of_cons in Hm as [->|Hm]; [by vm_compute|]);
      apply elem_of_nil in Hm.
  - apply (extract_total _ 200%nat).
    intros m m' Hm Hm'. vm_compute in Hm, Hm'.
    repeat (apply elem_of_cons in Hm as [->|Hm];
            [|try by apply elem_of_nil in Hm]);
    repeat (apply elem_of_cons in Hm' as [->|Hm'];
            [by vm_compute|try by apply elem_of_nil in Hm']).
Defined.

(** The network failing, the status not being [ok] and the body not being
    readable all end in the empty array. *)
Example fetchGooglePhotos_failures status html :
  fetchGooglePhotos (Throw "NetworkError") = [] ∧
  fetchGooglePhotos (Normal (mkResponse false status (Normal html))) = [] ∧
  fetchGooglePhotos (Normal (mkResponse true status (Throw "TypeError"))) = [].
Proof. done. Qed.

(** C9, as stated: a failed occurrence of a URL never blocks a later
    occurrence that passes.  It fails on a page whose quota is filled
    before the later occurrence. *)
Lemma laterOccurrenceAccepted_fullPage : ¬ laterOccurrenceAccepted fullPage.
Proof.
  intros H.
  destruct (occurrences fullPage 0 !! 6%nat) as [m1|] eqn:H1;
    [|by vm_compute in H1].
  destruct (occurrences fullPage 0 !! 7%nat) as [m2|] eqn:H2;
    [|by vm_compute in H2].
  specialize (H 6%nat 7%nat m1 m2 H1 H2).
  vm_compute in H1, H2. injection H1 as <-. injection H2 as <-.
  assert (photo "g" 900 900 ∈ extract fullPage) as Hin.
  { apply H; [lia|by vm_compute| |by vm_compute..].
    intros j m Hj Hm.
    do 6 (destruct j as [|j];
          [vm_compute in Hm; injection Hm as <-; by vm_compute|]).
    lia. }
  rewrite extract_fullPage in Hin.
  by repeat (apply elem_of_cons in Hin as [Hin|Hin]; [by vm_compute in Hin|]);
    apply elem_of_nil in Hin.
Qed.

(** C9, amended. Only accepted URLs are remembered: a descriptor that
    passes the size filter, while every earlier descriptor of its URL fails
    it, is accepted when fewer than six photos are accepted before it. *)
Theorem later_occurrence_within_quota html j m :
  occurrences html 0 !! j = Some m →
  passesFilter (photoOf m) = true →
  (∀ j' m', (j' < j)%nat → occurrences html 0 !! j' = Some m' →
            group m' 1 = group m 1 → passesFilter (photoOf m') = false) →
  (length (acceptedBefore html j) < 6)%nat →
  photoOf m ∈ extract html.
Proof.
  intros Hj Hpass Hfirst Hquota. unfold acceptedBefore in Hquota.
  rewrite extract_accepted. unfold accepted, candidates, MAX_ITEMS.
  rewrite <- (take_drop_middle _ _ _ Hj).
  rewrite fmap_app, filter_app, fmap_cons, filter_cons_True by done.
  rewrite firstOfEachUrl_app. cbn [firstOfEachUrl].
  set (A := firstOfEachUrl [] _) in *.
  rewrite bool_decide_eq_false_2.
  - apply elem_of_take. exists (length A). split; [|done].
    by rewrite list_lookup_middle.
  - rewrite app_nil_r, elem_of_reverse.
    intros (p & Hu & Hp)%list_elem_of_fmap.
    eapply elem_of_sublist in Hp; [|apply firstOfEachUrl_sublist].
    apply list_elem_of_filter in Hp as [Hp (m' & -> & Hm')%list_elem_of_fmap].
    apply list_elem_of_lookup in Hm' as [j' Hj'].
    apply lookup_take_Some in Hj' as [Hj' Hlt].
    specialize (Hfirst j' m' Hlt Hj' (eq_sym Hu)). congruence.
Qed.


Lemma later_occurrence_within_quota_witness :
  ∃ m, occurrences retryPage 0 !! 2%nat = Some m ∧
       photoOf m = photo "g" 900 900 ∧
       photoOf m ∈ extract retryPage.
Proof.
  destruct (occurrences retryPage 0 !! 2%nat) as [m|] eqn:Hm;
    [|by vm_compute in Hm].
  exists m. split; [done|].
  pose proof Hm as Hm'. vm_compute in Hm'. injection Hm' as Hm'.
  split; [by rewrite <- Hm'; vm_compute|].
  apply (later_occurrence_within_quota retryPage 2 m Hm).
  - by rewrite <- Hm'; vm_compute.
  - intros j' m' Hlt Hj' Heq. rewrite <- Hm' in Heq.
    destruct j' as [|[|j']]; [| |lia];
      vm_compute in Hj'; injection Hj' as <-; [by vm_compute in Heq|by vm_compute].
  - vm_compute. lia.
Defined.

(** ** No state between calls *)

(** C8. Two calls on the same text return equal lists.  Whatever objects
    the store holds, a call creates its own pattern object, array and set;
    the second call, run on the store the first one leaves, returns a new
    array with the same photos, those of [extract], and the array of the
    first call is not touched. *)
Theorem extract_twice html h :
  ∃ photos1 h1 photos2 h2,
    Objects.scan html h = Some (Normal (photos1, h1)) ∧
    Objects.scan html h1 = Some (Normal (photos2, h2)) ∧
    photos1 ≠ photos2 ∧
    h1 !! photos1 = Some (Objects.ArrayObject (extract html)) ∧
    h2 !! photos2 = Some (Objects.ArrayObject (extract html)) ∧
    h2 !! photos1 = Some (Objects.ArrayObject (extract html)).
Proof.
  destruct (scan_extract html h) as (photos1 & h1 & Hs1 & _ & Hr1 & _).
  destruct (scan_extract html h1) as (photos2 & h2 & Hs2 & Hnew & Hr2 & Hkeep).
  exists photos1, h1, photos2, h2. repeat split; try done.
  - congruence.
  - by rewrite Hkeep.
Qed.

(** The scan position and the set of a finished call, carried into a new
    loop, would give another result. *)
Example loop_carried_over :
  extract retryPage = [photo "a" 1600 1200; photo "g" 900 900] ∧
  (loop retryPage 0 [] {[lit HOST ++ lit "g"]}).1 = [photo "a" 1600 1200] ∧
  (loop fullPage (stopIndex fullPage) [] ∅).1 = [photo "g" 900 900].
Proof. by vm_compute. Qed.

(** * Further properties *)

(** ** The pattern and its occurrences *)

(** X1. The pattern matches at the start of a text exactly when the text
    starts with a descriptor: bracket, quote, host, a non-empty run without
    quote, quote, comma, digits, comma, digits, bracket.  The match ends
    with the descriptor and captures the URL and the two runs of digits. *)
Theorem regex_matches_descriptors s i m :
  matchAt regex s i = Some m ↔
  ∃ body w h t, s = descriptorText body w h ++ t ∧ wellFormed body w h ∧
                m = descriptorMatch i body w h.
Proof.
  split; [apply matchAt_regex_Some|].
  intros (body & w & h & t & -> & Hwf & ->). by apply matchAt_regex_complete.
Qed.



(** X3. Stepping through the text with [exec], each time from the end of
    the last match, meets every occurrence of a descriptor: from a position
    in the text, the occurrences that remain are the match [exec] finds
    followed by those after its end, and none when [exec] gives [null]. *)
Theorem exec_enumerates_occurrences html i :
  (i ≤ length html)%nat →
  occurrences (drop i html) i =
  match exec regex html i with
  | Some m => m :: occurrences (drop (lastIndex m) html) (lastIndex m)
  | None => []
  end.
Proof.
  intros Hi. destruct (exec regex html i) as [m|] eqn:Hex.
  - by apply exec_Some_occurrences.
  - by apply exec_None_occurrences.
Qed.

Lemma exec_enumerates_occurrences_witness :
  occurrences (drop 60 retryPage) 60 =
  match exec regex retryPage 60 with
  | Some m => m :: occurrences (drop (lastIndex m) retryPage) (lastIndex m)
  | None => []
  end.
Proof. apply (exec_enumerates_occurrences retryPage 60). vm_compute. lia. Defined.

(** ** What the photos carry *)

Lemma extract_elem_occurrence html p :
  p ∈ extract html →
  ∃ m, m ∈ occurrences html 0 ∧ p = photoOf m ∧ passesFilter p = true.
Proof.
  intros Hp. rewrite extract_accepted in Hp.
  pose proof (accepted_passesFilter _ _ Hp) as Hpass.
  eapply elem_of_sublist in Hp;
    [|etrans; [apply accepted_sublist|apply candidates_sublist]].
  apply list_elem_of_fmap in Hp as (m & -> & Hm). eauto.
Qed.

(** X4. Every URL of the result starts with the host of the pattern, goes
    on after it, and holds no double quote. *)
Theorem extract_urls_from_host html p :
  p ∈ extract html →
  ∃ body, url p = lit HOST ++ body ∧ body ≠ [] ∧ QUOTE ∉ body.
Proof.
  intros (m & Hm & -> & _)%extract_elem_occurrence.
  apply occurrences_groups in Hm as (body & w & h & [Hne Hb _ _ _ _] & H1 & _).
  exists body. split; [done|]. split; [done|].
  intros Hq. eapply Forall_forall in Hb; [|exact Hq]. by vm_compute in Hb.
Qed.

Lemma extract_urls_from_host_witness :
  photo "g" 900 900 ∈ extract retryPage ∧
  ∃ body, url (photo "g" 900 900) = lit HOST ++ body ∧ body ≠ [] ∧ QUOTE ∉ body.
Proof.
  assert (photo "g" 900 900 ∈ extract retryPage) as Hin.
  { rewrite extract_retryPage. right. left. }
  split; [exact Hin|]. exact (extract_urls_from_host retryPage _ Hin).
Defined.

(** X5. The width and the height of a photo of the result are the Numbers
    nearest to the decimal integers of its descriptor, never NaN, and the
    integers themselves when these are below 2^53. *)
Theorem extract_dimensions_declared html p :
  p ∈ extract html →
  ∃ m, m ∈ occurrences html 0 ∧ url p = group m 1 ∧
       width p = toNumber (decimal (group m 2)) ∧
       height p = toNumber (decimal (group m 3)) ∧
       width p ≠ NaN ∧ height p ≠ NaN ∧
       (decimal (group m 2) < 2 ^ 53 → width p = Finite (decimal (group m 2))) ∧
       (decimal (group m 3) < 2 ^ 53 → height p = Finite (decimal (group m 3))).
Proof.
  intros (m & Hm & -> & _)%extract_elem_occurrence.
  exists m. split; [done|]. split; [done|].
  apply occurrences_groups in Hm
    as (body & w & h & [_ _ Hw1 Hw Hh1 Hh] & _ & H2 & H3).
  unfold photoOf. cbn [width height]. rewrite H2, H3, !parseInt_digits by done.
  assert (∀ n, toNumber n ≠ NaN) as Hnan.
  { intros n. unfold toNumber. cbv zeta.
    destruct (n <? 2 ^ 53); [done|]. by destruct (2 ^ 1024 <=? _). }
  assert (∀ n, n < 2 ^ 53 → toNumber n = Finite n) as Hexact.
  { intros n Hn. unfold toNumber. by rewrite (proj2 (N.ltb_lt _ _) Hn). }
  repeat split; auto.
Qed.

Lemma extract_dimensions_declared_witness :
  photo "g" 900 900 ∈ extract retryPage ∧
  ∃ m, m ∈ occurrences retryPage 0 ∧ url (photo "g" 900 900) = group m 1 ∧
       width (photo "g" 900 900) = toNumber (decimal (group m 2)) ∧
       height (photo "g" 900 900) = toNumber (decimal (group m 3)) ∧
       width (photo "g" 900 900) ≠ NaN ∧ height (photo "g" 900 900) ≠ NaN ∧
       (decimal (group m 2) < 2 ^ 53 →
        width (photo "g" 900 900) = Finite (decimal (group m 2))) ∧
       (decimal (group m 3) < 2 ^ 53 →
        height (photo "g" 900 900) = Finite (decimal (group m 3))).
Proof.
  assert (photo "g" 900 900 ∈ extract retryPage) as Hin.
  { rewrite extract_retryPage. right. left. }
  split; [exact Hin|]. exact (extract_dimensions_declared retryPage _ Hin).
Defined.

(** ** Longer texts and fuller results *)

Lemma accept_prefix m photos seenUrls :
  photos `prefix_of` (accept m photos seenUrls).1.
Proof.
  rewrite accept_eq. destruct (_ && _); cbn [fst]; [|done].
  by apply prefix_app_r.
Qed.

(** The loop only ever adds to the array. *)
Lemma loop_prefix html i photos seenUrls :
  photos `prefix_of` (loop html i photos seenUrls).1.
Proof.
  remember (length html - i)%nat as n eqn:Hn.
  revert i photos seenUrls Hn.
  induction (lt_wf n) as [n _ IH]. intros i photos seenUrls ->.
  rewrite loop_eq. destruct (exec regex html i) as [m|] eqn:Hex; [|done].
  pose proof (exec_progress _ _ _ Hex) as Hb. cbv zeta.
  destruct (6 <=? _)%nat; cbn [fst]; [apply accept_prefix|].
  etrans; [apply accept_prefix|]. eapply IH; [|reflexivity]. lia.
Qed.

Lemma loop_app_prefix html t i photos seenUrls :
  (loop html i photos seenUrls).1
    `prefix_of` (loop (html ++ t) i photos seenUrls).1.
Proof.
  remember (length html - i)%nat as n eqn:Hn.
  revert i photos seenUrls Hn.
  induction (lt_wf n) as [n _ IH]. intros i photos seenUrls ->.
  rewrite (loop_eq html), (loop_eq (html ++ t)).
  destruct (exec regex html i) as [m|] eqn:Hex.
  - pose proof (exec_progress _ _ _ Hex) as Hb.
    rewrite (exec_prefix html (html ++ t) i m (length html)); [|..|done|lia].
    + cbv zeta. destruct (6 <=? _)%nat; cbn [fst]; [done|].
      eapply IH; [|reflexivity]. lia.
    + by rewrite take_app_length, take_ge.
  - cbn [fst]. destruct (exec regex (html ++ t) i) as [m|]; [|done].
    cbv zeta. destruct (6 <=? _)%nat; cbn [fst]; [apply accept_prefix|].
    etrans; [apply accept_prefix|apply loop_prefix].
Qed.

(** X6. More text after a page only adds to the result: the photos of a
    text are the first photos of every text that continues it. *)
Theorem extract_app_prefix html t :
  extract html `prefix_of` extract (html ++ t).
Proof. apply loop_app_prefix. Qed.

Example extract_app_prefix_sample :
  extract (take 150 retryPage) = [photo "a" 1600 1200] ∧
  extract (take 150 retryPage ++ drop 150 retryPage)
    = [photo "a" 1600 1200; photo "g" 900 900].
Proof. by vm_compute. Qed.

Lemma firstOfEachUrl_covers (seen : list str) ps p :
  p ∈ ps → url p ∈ seen ∨ url p ∈ url <$> firstOfEachUrl seen ps.
Proof.
  revert seen. induction ps as [|q ps IH]; intros seen Hp.
  - by apply elem_of_nil in Hp.
  - simpl. destruct (bool_decide (url q ∈ seen)) eqn:Hq.
    + apply bool_decide_eq_true in Hq.
      apply elem_of_cons in Hp as [->|Hp]; [by left|by apply IH].
    + rewrite fmap_cons. apply elem_of_cons in Hp as [->|Hp]; [right; by left|].
      destruct (IH (url q :: seen) Hp) as [[->|Hs]%elem_of_cons|Hr].
      * right. by left.
      * by left.
      * right. by right.
Qed.

(** X7. Below the quota nothing is lost: when fewer than six photos are
    returned, the URL of every descriptor that passes the size filter is
    the URL of a photo of the result. *)
Theorem extract_complete_below_quota html m :
  (length (extract html) < 6)%nat →
  m ∈ occurrences html 0 → passesFilter (photoOf m) = true →
  group m 1 ∈ url <$> extract html.
Proof.
  rewrite extract_accepted. unfold accepted, MAX_ITEMS.
  intros Hlen Hm Hpass. rewrite length_take in Hlen.
  rewrite take_ge by lia.
  destruct (firstOfEachUrl_covers [] (candidates html) (photoOf m))
    as [Hnil|Hin]; [|by apply elem_of_nil in Hnil|done].
  apply list_elem_of_filter. split; [done|]. by apply list_elem_of_fmap_2.
Qed.

Lemma extract_complete_below_quota_witness :
  ∃ m, occurrences retryPage 0 !! 2%nat = Some m ∧
       group m 1 ∈ url <$> extract retryPage.
Proof.
  destruct (occurrences retryPage 0 !! 2%nat) as [m|] eqn:Hm;
    [|by vm_compute in Hm].
  exists m. split; [done|].
  apply (extract_complete_below_quota retryPage m).
  - vm_compute. lia.
  - by eapply list_elem_of_lookup_2.
  - vm_compute in Hm. injection Hm as <-. by vm_compute.
Defined.

(** ** The whole of [fetchGooglePhotos] *)

(** X8. Whatever the network does, [fetchGooglePhotos] returns an array: at
    most six photos, with distinct URLs, all above the size threshold.  The
    array is empty unless the response is [ok] and its body can be read,
    and then it is the result of the scan of the body. *)
Theorem fetchGooglePhotos_result fetched :
  (length (fetchGooglePhotos fetched) ≤ 6)%nat ∧
  NoDup (url <$> fetchGooglePhotos fetched) ∧
  Forall (λ p, passesFilter p = true) (fetchGooglePhotos fetched) ∧
  (fetchGooglePhotos fetched ≠ [] →
   ∃ status html, fetched = Normal (mkResponse true status (Normal html)) ∧
                  fetchGooglePhotos fetched = extract html).
Proof.
  assert (∀ html, (length (extract html) ≤ 6)%nat ∧
                  NoDup (url <$> extract html) ∧
                  Forall (λ p, passesFilter p = true) (extract html)) as Hex.
  { intros html. rewrite extract_accepted. split; [|split].
    - unfold accepted, MAX_ITEMS. rewrite length_take. lia.
    - unfold accepted. rewrite fmap_take.
      eapply sublist_NoDup; [apply (firstOfEachUrl_NoDup [])|apply sublist_take].
    - apply Forall_forall. intros p. apply accepted_passesFilter. }
  assert ((0 ≤ 6)%nat ∧ NoDup (url <$> @nil Photo) ∧
          Forall (λ p, passesFilter p = true) []) as Hnil.
  { split; [lia|]. split; constructor. }
  unfold fetchGooglePhotos, fetchAttempt.
  destruct fetched as [[[] status [html|e]]|e];
    cbn [mbind Completion_bind mret Completion_ret ok text negb];
    try (destruct Hnil as (? & ? & ?); by repeat split).
  destruct (Hex html) as (? & ? & ?). repeat split; try done.
  intros _. by exists status, html.
Qed.

Lemma fetchGooglePhotos_result_witness :
  fetchGooglePhotos (Normal (mkResponse true 200 (Normal retryPage))) ≠ [] ∧
  ∃ status html,
    Normal (mkResponse true 200 (Normal retryPage))
      = Normal (mkResponse true status (Normal html)) ∧
    fetchGooglePhotos (Normal (mkResponse true 200 (Normal retryPage)))
      = extract html.
Proof.
  assert (fetchGooglePhotos (Normal (mkResponse true 200 (Normal retryPage)))
          ≠ []) as Hne by (by vm_compute).
  split; [exact Hne|].
  exact (proj2 (proj2 (proj2 (fetchGooglePhotos_result _))) Hne).
Defined.

(** ** The grid as a whole *)

(** What [renderGallery] leaves in the container. *)
Lemma renderGallery_childNodes container photos :
  renderGallery (Some container) photos =
  Some (setChildNodes container
          (if decide (photos = []) then [unavailable]
           else imap (λ j photo, renderItem photo j) photos)).
Proof.
  unfold renderGallery. destruct photos as [|p photos]; [done|].
  cbn [length Nat.eqb]. rewrite forEach_appendChild.
  by rewrite decide_False.
Qed.

(** X9. Rendering replaces what the container held: rendering into a
    container that was rendered into before gives the same grid as
    rendering into the container as it first was, so a second call never
    piles its items on those of the first. *)
Theorem renderGallery_replaces container photos photos' :
  renderGallery (renderGallery (Some container) photos) photos'
  = renderGallery (Some container) photos'.
Proof. by rewrite (renderGallery_childNodes _ photos), !renderGallery_childNodes. Qed.


(** X11. Apart from index 0 no item is LARGE, apart from index 5 no item
    is WIDE, and only these two carry the overlay, for a list of any
    length. *)
Theorem layout_sole_slots container photos i slot :
  slots (renderGallery (Some container) photos) !! i = Some slot →
  (sizeClass slot = LARGE ↔ i = 0%nat) ∧
  (sizeClass slot = WIDE ↔ i = 5%nat) ∧
  (hasOverlay slot = true ↔ i = 0%nat ∨ i = 5%nat).
Proof.
  rewrite slots_renderGallery. unfold assignLayout.
  rewrite list_lookup_fmap. intros Hi.
  destruct (seq 0 (length photos) !! i) as [k|] eqn:Hk; [|done].
  apply lookup_seq in Hk as [-> _]. injection Hi as <-.
  do 6 (destruct i as [|i]; [simpl; repeat split; intros; try done; lia|]).
  simpl; repeat split; intros; try done; lia.
Qed.

Lemma layout_sole_slots_witness :
  slots (renderGallery (Some emptyGrid) (extract fullPage)) !! 5%nat
    = Some (mkSlotSpec WIDE true) ∧
  (sizeClass (mkSlotSpec WIDE true) = LARGE ↔ 5%nat = 0%nat) ∧
  (sizeClass (mkSlotSpec WIDE true) = WIDE ↔ 5%nat = 5%nat) ∧
  (hasOverlay (mkSlotSpec WIDE true) = true ↔ 5%nat = 0%nat ∨ 5%nat = 5%nat).
Proof.
  assert (slots (renderGallery (Some emptyGrid) (extract fullPage)) !! 5%nat
          = Some (mkSlotSpec WIDE true)) as H by (by vm_compute).
  split; [exact H|]. exact (layout_sole_slots _ _ _ _ H).
Defined.

(** ** From the page event to the grid *)

(** X12. What the handler of [DOMContentLoaded] puts into the grid,
    whatever the network does: the slots are the first ones of Big, four
    Small, Wide, so that no item falls outside the pattern of six; the
    images shown have distinct addresses on the host of the pattern; the
    grid is not left blank.  Without the container nothing is done. *)
Theorem onDOMContentLoaded_grid container fetched :
  slots (onDOMContentLoaded (Some container) fetched)
    `prefix_of` [mkSlotSpec LARGE true; mkSlotSpec SMALL false;
                 mkSlotSpec SMALL false; mkSlotSpec SMALL false;
                 mkSlotSpec SMALL false; mkSlotSpec WIDE true] ∧
  NoDup (shownUrls (onDOMContentLoaded (Some container) fetched)) ∧
  (∀ u, u ∈ shownUrls (onDOMContentLoaded (Some container) fetched) →
        ∃ body, u = lit HOST ++ body) ∧
  (∃ grid, onDOMContentLoaded (Some container) fetched = Some grid ∧
           childNodes grid ≠ []) ∧
  onDOMContentLoaded None fetched = None.
Proof.
  cbn [onDOMContentLoaded].
  rewrite slots_renderGallery, shownUrls_renderGallery.
  assert (∃ html, fetchGooglePhotos fetched = extract html) as [html ->].
  { unfold fetchGooglePhotos, fetchAttempt.
    destruct fetched as [[[] status [html|e]]|e];
      cbn [mbind Completion_bind mret Completion_ret ok text negb];
      first [by exists html|by exists []]. }
  split; [|split; [|split; [|split; [|done]]]].
  - assert (length (extract html) ≤ 6)%nat as Hlen.
    { rewrite extract_accepted. unfold accepted, MAX_ITEMS.
      rewrite length_take. lia. }
    destruct (length (extract html)) as [|[|[|[|[|[|[|n]]]]]]]; [..|lia];
      unfold assignLayout; simpl; by eexists.
  - rewrite extract_accepted. unfold accepted. rewrite fmap_take.
    eapply sublist_NoDup; [apply (firstOfEachUrl_NoDup [])|apply sublist_take].
  - intros u (p & -> & (m & Hm & -> & _)%extract_elem_occurrence)%list_elem_of_fmap.
    apply occurrences_groups in Hm as (body & w & h & _ & H1 & _).
    by exists body.
  - rewrite renderGallery_childNodes. eexists. split; [done|].
    cbn [setChildNodes childNodes]. by destruct (decide _), (extract html).
Qed.

(** ** The objects of a call *)

Section CallObjects.

Import Objects.

Implicit Types (h : Heap) (re ph su : Ref).

Lemma accept_seenUrls m l :
  (accept m l (list_to_set (url <$> l))).2
  = list_to_set (url <$> (accept m l (list_to_set (url <$> l))).1).
Proof.
  rewrite accept_eq. destruct (_ && _); cbn [fst snd]; [|done].
  rewrite fmap_app, list_to_set_app_L. simpl. by rewrite union_empty_r_L.
Qed.

(** The loop on objects keeps the set equal to the URLs of the array, and
    leaves the pattern object at the position where the loop on values
    stops. *)
Lemma while_running fuel html h re ph su i l :
  running h re ph su i l (list_to_set (url <$> l)) →
  (length html - i < fuel)%nat →
  ∃ h', while fuel html re ph su h = Some (Normal h') ∧
        running h' re ph su
          (loop html i l (list_to_set (url <$> l))).2
          (loop html i l (list_to_set (url <$> l))).1
          (list_to_set (url <$> (loop html i l (list_to_set (url <$> l))).1)) ∧
        sameElsewhere h h' re ph su.
Proof.
  revert h i l. induction fuel as [|fuel IH]; intros h i l Hrun Hfuel; [lia|].
  pose proof Hrun as [Hre Hph Hsu H1 H2 H3].
  cbn [while]. unfold getRegExp. rewrite Hre, loop_eq.
  destruct (exec regex html i) as [m|] eqn:Hex.
  - pose proof (exec_progress _ _ _ Hex) as Hb. cbv zeta.
    set (h1 := <[re := RegExpObject regex (RegExp.lastIndex m)]> h).
    assert (running h1 re ph su (RegExp.lastIndex m) l
              (list_to_set (url <$> l))) as Hrun1.
    { split; try done; unfold h1.
      - by rewrite lookup_insert_eq.
      - by rewrite lookup_insert_ne.
      - by rewrite lookup_insert_ne. }
    destruct (iteration_accept m _ _ _ _ _ _ _ Hrun1) as (h2 & -> & Hrun2 & Hsame2).
    rewrite (getArray_Some _ _ _ (run_photos _ _ _ _ _ _ _ Hrun2)).
    rewrite accept_seenUrls in Hrun2 |- *.
    destruct (6 <=? _)%nat; cbn [fst snd].
    + exists h2. split; [done|]. split; [done|].
      intros r ? ? ?. rewrite Hsame2 by done. unfold h1. by rewrite lookup_insert_ne.
    + destruct (IH _ _ _ Hrun2) as (h3 & -> & Hrun3 & Hsame3); [lia|].
      exists h3. split; [done|]. split; [done|].
      intros r ? ? ?. rewrite Hsame3, Hsame2 by done.
      unfold h1. by rewrite lookup_insert_ne.
  - eexists. split; [done|]. cbn [fst snd]. split.
    + split; try done.
      * by rewrite lookup_insert_eq.
      * by rewrite lookup_insert_ne.
      * by rewrite lookup_insert_ne.
    + intros r ? ? ?. by rewrite lookup_insert_ne.
Qed.

(** The three objects that a call creates are new and apart. *)
Lemma scan_alloc html h :
  ∃ re ph su h0,
    running h0 re ph su 0 [] ∅ ∧
    h !! re = None ∧ h !! ph = None ∧ h !! su = None ∧
    sameElsewhere h h0 re ph su ∧
    scan html h =
    match while (S (length html)) html re ph su h0 with
    | Some (Normal h') => Some (Normal (ph, h'))
    | Some (Throw e) => Some (Throw e)
    | None => None
    end.
Proof.
  unfold scan, alloc. cbv zeta.
  set (re := fresh (dom h)).
  set (h1 := <[re := _]> h).
  set (ph := fresh (dom h1)).
  set (h2 := <[ph := _]> h1).
  set (su := fresh (dom h2)).
  set (h3 := <[su := _]> h2).
  assert (h !! re = None) as Hre by apply not_elem_of_dom, is_fresh.
  assert (h1 !! ph = None) as Hph by apply not_elem_of_dom, is_fresh.
  assert (h2 !! su = None) as Hsu by apply not_elem_of_dom, is_fresh.
  assert (re ≠ ph) as H1.
  { intros Heq. unfold h1 in Hph. by rewrite <- Heq, lookup_insert_eq in Hph. }
  assert (ph ≠ su) as H3.
  { intros Heq. unfold h2 in Hsu. by rewrite <- Heq, lookup_insert_eq in Hsu. }
  assert (re ≠ su) as H2.
  { intros Heq. unfold h2, h1 in Hsu.
    by rewrite <- Heq, lookup_insert_ne, lookup_insert_eq in Hsu. }
  exists re, ph, su, h3. split; [|split; [done|split; [|split; [|split; [|done]]]]].
  - split; try done; unfold h3, h2, h1.
    + do 2 (rewrite lookup_insert_ne by done). by rewrite lookup_insert_eq.
    + rewrite lookup_insert_ne by done. by rewrite lookup_insert_eq.
    + by rewrite lookup_insert_eq.
  - unfold h1 in Hph. by rewrite lookup_insert_ne in Hph.
  - unfold h2, h1 in Hsu. by do 2 (rewrite lookup_insert_ne in Hsu by done).
  - intros r ? ? ?. unfold h3, h2, h1.
    by do 3 (rewrite lookup_insert_ne by done).
Qed.

(** X13. A call works on three objects of its own.  It ends normally and
    changes no object that was there before; when it ends its set holds
    exactly the URLs of the photos of its array, the array holds the
    result of [extract], and its pattern object stands at [stopIndex]. *)
Theorem scan_objects html h :
  ∃ pattern photos seen h',
    scan html h = Some (Normal (photos, h')) ∧
    h !! pattern = None ∧ h !! photos = None ∧ h !! seen = None ∧
    (∀ r, is_Some (h !! r) → h' !! r = h !! r) ∧
    h' !! pattern = Some (RegExpObject regex (stopIndex html)) ∧
    h' !! photos = Some (ArrayObject (extract html)) ∧
    h' !! seen = Some (SetObject (list_to_set (url <$> extract html))).
Proof.
  destruct (scan_alloc html h)
    as (re & ph & su & h0 & Hrun & Hre & Hph & Hsu & Hsame0 & ->).
  destruct (while_running (S (length html)) html h0 re ph su 0 [] Hrun)
    as (h' & -> & [Hre' Hph' Hsu' _ _ _] & Hsame); [lia|].
  exists re, ph, su, h'. repeat split; try done.
  intros r [o Hr]. rewrite Hsame, Hsame0; congruence.
Qed.

End CallObjects.

(** ** The request *)

Example requestUrl_album :
  requestUrl GOOGLE_PHOTOS_ALBUM_URL
  = Normal (lit RELAY
             ++ lit "https%3A%2F%2Fphotos.app.goo.gl%2FQc4y7t5ha15qC4Q5A").
Proof. by vm_compute. Qed.

Example encodeURIComponent_samples :
  URI.encodeURIComponent [233] = Normal (lit "%C3%A9") ∧
  URI.encodeURIComponent [8364; 32; 97] = Normal (lit "%E2%82%AC%20a") ∧
  URI.encodeURIComponent [55357; 56832] = Normal (lit "%F0%9F%98%80") ∧
  URI.encodeURIComponent [55357; 97] = Throw "URIError" ∧
  URI.encodeURIComponent [56832] = Throw "URIError".
Proof. by vm_compute. Qed.

Section Request.

Import URI.

Lemma hexDigit_unreserved d : d < 16 → isUnreserved (hexDigit d) = true.
Proof.
  intros Hd. unfold hexDigit, isUnreserved.
  destruct (d <? 10) eqn:H10.
  - apply N.ltb_lt in H10.
    assert (isDigit (48 + d) = true) as ->; [|by rewrite orb_true_r].
    unfold isDigit. apply andb_true_iff. split; apply N.leb_le; lia.
  - apply N.ltb_ge in H10.
    assert ((65 <=? 55 + d) && (55 + d <=? 90) = true) as ->; [|done].
    apply andb_true_iff. split; apply N.leb_le; lia.
Qed.

Lemma escape_encoded octet :
  octet < 256 → Forall (λ c, isEncoded c = true) (escape octet).
Proof.
  intros Ho. unfold escape, isEncoded. repeat constructor.
  - rewrite hexDigit_unreserved; [done|]. by apply N.Div0.div_lt_upper_bound.
  - rewrite hexDigit_unreserved; [done|]. by apply N.mod_lt.
Qed.

Lemma utf8_octets cp : cp < 2097152 → Forall (λ o, o < 256) (utf8 cp).
Proof.
  intros Hcp. unfold utf8.
  assert (∀ x, x mod 64 < 64) as Hmod by (intros; by apply N.mod_lt).
  destruct (cp <? 128) eqn:H1; [apply N.ltb_lt in H1; repeat constructor; lia|].
  destruct (cp <? 2048) eqn:H2.
  { apply N.ltb_lt in H2.
    assert (cp / 64 < 32) by (by apply N.Div0.div_lt_upper_bound).
    repeat constructor; [lia|]. specialize (Hmod cp). lia. }
  destruct (cp <? 65536) eqn:H3.
  { apply N.ltb_lt in H3.
    assert (cp / 4096 < 16) by (by apply N.Div0.div_lt_upper_bound).
    pose proof (Hmod cp). pose proof (Hmod (cp / 64)).
    repeat constructor; lia. }
  assert (cp / 262144 < 8) by (by apply N.Div0.div_lt_upper_bound).
  pose proof (Hmod cp). pose proof (Hmod (cp / 64)). pose proof (Hmod (cp / 4096)).
  repeat constructor; lia.
Qed.

Lemma utf8_escape_encoded cp :
  cp < 2097152 → Forall (λ c, isEncoded c = true) (utf8 cp ≫= escape).
Proof.
  intros Hcp. apply Forall_bind.
  eapply Forall_impl; [by apply utf8_octets|]. apply escape_encoded.
Qed.

Lemma encodeURIComponent_encoded s e :
  Forall (λ c, c < 65536) s →
  encodeURIComponent s = Normal e →
  Forall (λ c, isEncoded c = true) e.
Proof.
  revert e. induction s as [s IH] using (induction_ltof1 _ length).
  unfold ltof in IH. intros e Hs.
  destruct s as [|c s]; [by intros [= <-]|]. cbn [encodeURIComponent].
  apply Forall_cons in Hs as [Hc Hs].
  destruct (isUnreserved c) eqn:Hu.
  - destruct (encodeURIComponent s) as [e'|] eqn:He'; [|done].
    intros [= <-]. constructor.
    + unfold isEncoded. by rewrite Hu.
    + apply (IH s); [simpl; lia|done..].
  - destruct (isHighSurrogate c) eqn:Hhi.
    + destruct s as [|lo s]; [done|].
      apply Forall_cons in Hs as [Hlo Hs].
      destruct (isLowSurrogate lo) eqn:Hl; [|done].
      destruct (encodeURIComponent s) as [e'|] eqn:He'; [|done].
      intros [= <-]. apply Forall_app. split.
      * apply utf8_escape_encoded. unfold pairCodePoint.
        unfold isHighSurrogate, isLowSurrogate in Hhi, Hl.
        apply andb_true_iff in Hhi as [_ ?%N.leb_le].
        apply andb_true_iff in Hl as [_ ?%N.leb_le]. lia.
      * apply (IH s); [simpl; lia|done..].
    + destruct (isLowSurrogate c); [done|].
      destruct (encodeURIComponent s) as [e'|] eqn:He'; [|done].
      intros [= <-]. apply Forall_app. split.
      * apply utf8_escape_encoded. lia.
      * apply (IH s); [simpl; lia|done..].
Qed.

(** X14. The address requested is the relay's address followed by the
    encoded album address, which holds only letters, digits, the marks
    [- _ . ! ~ * ' ( )] and percent signs: no character of the album
    address can end the [url] parameter or start another one. *)
Theorem requestUrl_one_parameter albumUrl address :
  Forall (λ c, c < 65536) albumUrl →
  requestUrl albumUrl = Normal address →
  ∃ encoded, address = lit RELAY ++ encoded ∧
    Forall (λ c, isEncoded c = true) encoded ∧
    ∀ c, c ∈ lit "&=?#/+ :;,@$[]" → c ∉ encoded.
Proof.
  intros Hs. unfold requestUrl.
  destruct (encodeURIComponent albumUrl) as [e|] eqn:He; [|done].
  intros [= <-]. exists e. split; [done|].
  pose proof (encodeURIComponent_encoded _ _ Hs He) as Henc.
  split; [done|]. intros c Hc Hin.
  eapply Forall_forall in Henc; [|exact Hin].
  vm_compute in Hc.
  repeat (apply elem_of_cons in Hc as [->|Hc]; [by vm_compute in Henc|]).
  by apply elem_of_nil in Hc.
Qed.

Lemma requestUrl_one_parameter_witness :
  Forall (λ c, c < 65536) GOOGLE_PHOTOS_ALBUM_URL ∧
  ∃ encoded,
    lit RELAY ++ lit "https%3A%2F%2Fphotos.app.goo.gl%2FQc4y7t5ha15qC4Q5A"
      = lit RELAY ++ encoded ∧
    Forall (λ c, isEncoded c = true) encoded ∧
    ∀ c, c ∈ lit "&=?#/+ :;,@$[]" → c ∉ encoded.
Proof.
  assert (Forall (λ c, c < 65536) GOOGLE_PHOTOS_ALBUM_URL) as Hs.
  { apply Forall_forall. intros c Hc. vm_compute in Hc.
    repeat (apply elem_of_cons in Hc as [->|Hc]; [done|]).
    by apply elem_of_nil in Hc. }
  split; [exact Hs|].
  exact (requestUrl_one_parameter _ _ Hs requestUrl_album).
Defined.

Lemma encodeURIComponent_defined s :
  Forall (λ c, isHighSurrogate c = false ∧ isLowSurrogate c = false) s →
  ∃ e, encodeURIComponent s = Normal e.
Proof.
  induction 1 as [|c s [Hhi Hlo] _ [e IH]]; [by exists []|].
  cbn [encodeURIComponent]. rewrite Hhi, Hlo, IH.
  destruct (isUnreserved c); by eexists.
Qed.

(** X15. An album address without surrogate code units always gives a
    request: [encodeURIComponent] does not throw on it, and the photos
    returned are those of the answer to that one address. *)
Theorem fetchGooglePhotosFrom_requests fetch albumUrl :
  Forall (λ c, isHighSurrogate c = false ∧ isLowSurrogate c = false) albumUrl →
  ∃ address, requestUrl albumUrl = Normal address ∧
             fetchGooglePhotosFrom fetch albumUrl
             = fetchGooglePhotos (fetch address).
Proof.
  intros [e He]%encodeURIComponent_defined.
  unfold fetchGooglePhotosFrom, requestUrl. rewrite He.
  by eexists.
Qed.

Lemma fetchGooglePhotosFrom_requests_witness :
  ∃ address,
    requestUrl GOOGLE_PHOTOS_ALBUM_URL = Normal address ∧
    fetchGooglePhotosFrom
      (λ _, Normal (mkResponse true 200 (Normal retryPage)))
      GOOGLE_PHOTOS_ALBUM_URL
    = fetchGooglePhotos (Normal (mkResponse true 200 (Normal retryPage))).
Proof.
  apply (fetchGooglePhotosFrom_requests
           (λ _, Normal (mkResponse true 200 (Normal retryPage)))).
  apply Forall_forall. intros c Hc. vm_compute in Hc.
  repeat (apply elem_of_cons in Hc as [->|Hc]; [done|]).
  by apply elem_of_nil in Hc.
Defined.

(** X16. The script asks the relay and nobody else: two networks that
    answer alike at the addresses starting with the relay's give the same
    photos; and with an album address that cannot be encoded no request is
    made and the array is empty. *)
Theorem fetchGooglePhotosFrom_relay_only fetch fetch' albumUrl :
  (∀ address, lit RELAY `prefix_of` address → fetch address = fetch' address) →
  fetchGooglePhotosFrom fetch albumUrl = fetchGooglePhotosFrom fetch' albumUrl ∧
  (∀ e, requestUrl albumUrl = Throw e →
        fetchGooglePhotosFrom fetch albumUrl = []).
Proof.
  intros Hsame. unfold fetchGooglePhotosFrom, requestUrl.
  destruct (encodeURIComponent albumUrl) as [e|e];
    cbn [mbind Completion_bind mret Completion_ret]; [|done].
  split; [|done]. rewrite Hsame; [done|]. by apply prefix_app_r.
Qed.

Lemma fetchGooglePhotosFrom_relay_only_witness :
  fetchGooglePhotosFrom
    (λ address, if bool_decide (lit RELAY `prefix_of` address)
                then Normal (mkResponse true 200 (Normal retryPage))
                else Throw "NetworkError")
    GOOGLE_PHOTOS_ALBUM_URL
  = fetchGooglePhotosFrom
      (λ _, Normal (mkResponse true 200 (Normal retryPage)))
      GOOGLE_PHOTOS_ALBUM_URL.
Proof.
  apply fetchGooglePhotosFrom_relay_only.
  intros address Hp. by rewrite bool_decide_eq_true_2.
Defined.

End Request.

(** ** How many photos *)

(** X17. The number of photos returned is the number of distinct URLs among
    the descriptors that pass the size filter, capped at six. *)
Theorem extract_length html :
  length (extract html)
  = (6 `min` size (list_to_set (url <$> candidates html) : gset str))%nat.
Proof.
  rewrite extract_accepted. unfold accepted, MAX_ITEMS. rewrite length_take.
  f_equal.
  assert (list_to_set (url <$> firstOfEachUrl [] (candidates html))
          =@{gset str} list_to_set (url <$> candidates html)) as <-.
  { apply set_eq. intros u. rewrite !elem_of_list_to_set. split.
    - intros (p & -> & Hp)%list_elem_of_fmap. apply list_elem_of_fmap_2.
      eapply elem_of_sublist; [exact Hp|apply firstOfEachUrl_sublist].
    - intros (p & -> & Hp)%list_elem_of_fmap.
      destruct (firstOfEachUrl_covers [] _ _ Hp) as [Hnil|Hin]; [|done].
      by apply elem_of_nil in Hnil. }
  rewrite size_list_to_set by apply firstOfEachUrl_NoDup.
  by rewrite length_fmap.
Qed.

Example extract_length_albumPage :
  length (candidates albumPage) = 6%nat ∧ length (extract albumPage) = 5%nat.
Proof. by vm_compute. Qed.

(** ** The items of the grid *)

(** X18. The item of each photo ends with its image: an [img] whose source
    is the URL of the photo, with the alternative text and lazy loading.
    The image is the only child of the item, but for the overlay that
    precedes it in the first and the sixth item. *)
Theorem gridItems_images container photos i photo :
  photos !! i = Some photo →
  ∃ item img,
    gridItems (renderGallery (Some container) photos) !! i = Some item ∧
    last (childNodes item) = Some img ∧
    tagName img = "img" ∧ src img = Some (url photo) ∧
    alt img = Some "Foto da Galeria CuidaPet" ∧ loading img = Some "lazy" ∧
    childNodes img = [] ∧
    childNodes item
    = (if bool_decide (i = 0%nat ∨ i = 5%nat) then [overlay] else []) ++ [img].
Proof.
  intros Hi. rewrite gridItems_renderGallery, list_lookup_imap, Hi.
  eexists _, _. split; [done|].
  do 6 (destruct i as [|i]; [by vm_compute|]).
  rewrite bool_decide_eq_false_2 by lia. done.
Qed.

Lemma gridItems_images_witness :
  extract retryPage !! 1%nat = Some (photo "g" 900 900) ∧
  ∃ item img,
    gridItems (renderGallery (Some emptyGrid) (extract retryPage)) !! 1%nat
      = Some item ∧
    last (childNodes item) = Some img ∧
    tagName img = "img" ∧ src img = Some (url (photo "g" 900 900)) ∧
    alt img = Some "Foto da Galeria CuidaPet" ∧ loading img = Some "lazy" ∧
    childNodes img = [] ∧
    childNodes item
    = (if bool_decide (1%nat = 0%nat ∨ 1%nat = 5%nat) then [overlay] else [])
        ++ [img].
Proof.
  assert (extract retryPage !! 1%nat = Some (photo "g" 900 900)) as H
    by (by vm_compute).
  split; [exact H|]. exact (gridItems_images emptyGrid _ _ _ H).
Defined.
